(** * Seoulfie photo gallery: a shallow embedding of [app.py]

    The gallery is one Streamlit script.  Its external collaborators (the
    Google Drive service, the imaging library, Streamlit, the clock) are
    modelled as an explicit [world] that every effectful function threads,
    together with oracles that say what the collaborators answer or raise.
    Pure parts of the script (sorting, filtering, selection, pagination) are
    plain functions; of Python's [str] methods, [strip] is written out and
    [lower], which rests on the case tables of Unicode, is taken as given. *)

From Stdlib Require Import QArith Lqa ZArith Lia List String Ascii Sorted Permutation.
From stdpp Require Import gmap strings list.

Set Default Proof Using "Type".

(** ** Data model *)

(** A Drive folder as returned with [fields="files(id, name)"]. *)
Record Folder := { folder_id : string; folder_name : string }.

(** A Drive image as returned with [fields="files(id, name, mimeType)"]. *)
Record ImageDescriptor :=
  { image_id : string; image_name : string; image_mimeType : string }.

Definition bytes := list Byte.byte.

(** A decoded picture: only its size and its origin matter here. *)
Record pil_image := { pil_width : Z; pil_height : Z; pil_source : bytes }.

(** ** Exceptions

    The handlers of the script distinguish three classes of raised objects:
    [ssl.SSLError] (first handler of the retry loop), any other instance of
    [Exception] (second handler, and the handler of the renderer), and the
    raised objects that are not instances of [Exception] ([KeyboardInterrupt],
    [SystemExit]...), which no handler of the script catches. *)
Inductive exn_class := SSLError | OtherException | NotAnException.

Record exn := { exn_class_of : exn_class; exn_str : string }.

(** [isinstance(e, ssl.SSLError)] *)
Definition is_SSLError (e : exn) : bool :=
  match exn_class_of e with SSLError => true | _ => false end.

(** [isinstance(e, Exception)] *)
Definition is_Exception (e : exn) : bool :=
  match exn_class_of e with NotAnException => false | _ => true end.

(** What [raise None] raises. *)
Definition TypeError_raise_None : exn :=
  {| exn_class_of := OtherException;
     exn_str := "exceptions must derive from BaseException" |}.

Inductive result (A : Type) := Returned (a : A) | Raised (e : exn).
Arguments Returned {A} a.
Arguments Raised {A} e.

Definition returned {A} (r : result A) : bool :=
  match r with Returned _ => true | Raised _ => false end.

(** ** The Drive service

    One download is a sequence of [next_chunk()] calls; each call either
    yields a chunk with [done = False], yields the final chunk with
    [done = True], or raises (a raise while the request is built counts as
    a raise of the first call). *)
Inductive transfer :=
| NextChunk (data : bytes) (rest : transfer)
| NextChunkDone (data : bytes)
| NextChunkRaises (e : exn).

(** The error a transfer ends with, if it does. *)
Fixpoint transfer_error (t : transfer) : option exn :=
  match t with
  | NextChunk _ rest => transfer_error rest
  | NextChunkDone _ => None
  | NextChunkRaises e => Some e
  end.

(** The answers of the service.  The [nat] is the number of calls made to
    the service before, so that an answer may differ from one call to the
    next (transient failures). *)
Record drive_service := {
  files_get : string -> nat -> result (option string);
  files_list_folders : string -> nat -> result (option (list Folder));
  files_list_images : string -> nat -> result (option (list ImageDescriptor));
  get_media : string -> nat -> transfer
}.

(** The imaging library ([PIL.Image]). *)
Record imaging := {
  Image_open : bytes -> result pil_image;
  Image_thumbnail : pil_image -> Z * Z -> result pil_image
}.

(** Streamlit, where the script may see it raise.  [st.image] encodes the
    picture before it writes anything to the page, and raises when the
    picture cannot be encoded; [st.columns] refuses a specification that is
    not positive, with an error whose text depends on the version of
    Streamlit. *)
Record streamlit := {
  st_image_raises : pil_image -> option exn;
  StreamlitInvalidColumnSpecError : exn
}.

(** ** Observable events *)

(** The four functions decorated with [st.cache_data]. *)
Inductive cached_fn :=
  GetFolderName | ListFolders | ListImages | DownloadImageBytes.

(** [GetMedia] opens a download attempt; [Raises] is logged where a
    collaborator raises; [Enter f arg] marks that the function wrapped by
    [f] starts running on [arg], that is a cache miss. *)
Inductive event :=
| FilesGet (folder : string)
| FilesList (q : string)
| GetMedia (file : string)
| NextChunkCall
| Raises (e : exn)
| Sleep (d : Q)
| Enter (f : cached_fn) (arg : string).

(** ** Page elements *)
Inductive element :=
| StImage (img : pil_image) (caption : string)
| StError (body : string)
| StCaption (body : string).

(** Where an element goes: the main area, or one of the columns made by
    [st.columns]. *)
Inductive container_ref := Main | Column (k : nat).

(** ** The world *)

(** Each cached function has a store of its own, from the argument to the
    value and the time it was stored at.  [container] is the container that
    [st] calls currently write to, [page] the elements written so far. *)
Record world := {
  clock : Q;
  requests : nat;
  log : list event;
  store_get_folder_name : gmap string (string * Q);
  store_list_folders : gmap string (list Folder * Q);
  store_list_images : gmap string (list ImageDescriptor * Q);
  store_download_image_bytes : gmap string (bytes * Q);
  container : container_ref;
  page : list (container_ref * element)
}.

Definition M (A : Type) : Type := world -> result A * world.

Definition ret {A} (a : A) : M A := fun w => (Returned a, w).

Definition raise {A} (e : exn) : M A := fun w => (Raised e, w).

Definition bind {A B} (m : M A) (k : A -> M B) : M B :=
  fun w => match m w with
           | (Returned a, w') => k a w'
           | (Raised e, w') => (Raised e, w')
           end.

Notation "x <- m ;; k" := (bind m (fun x => k))
  (at level 100, m at next level, right associativity).
Notation "m ;;; k" := (bind m (fun _ => k))
  (at level 100, right associativity).

(** [try: body except Exception as e: handler e]; a raised object that is
    not an instance of [Exception] passes through. *)
Definition try_except_Exception {A} (body : M A) (handler : exn -> M A) : M A :=
  fun w => match body w with
           | (Returned a, w') => (Returned a, w')
           | (Raised e, w') =>
               if is_Exception e then handler e w' else (Raised e, w')
           end.

Definition with_log (l : list event) (w : world) : world :=
  {| clock := clock w; requests := requests w; log := l;
     store_get_folder_name := store_get_folder_name w;
     store_list_folders := store_list_folders w;
     store_list_images := store_list_images w;
     store_download_image_bytes := store_download_image_bytes w;
     container := container w; page := page w |}.

Definition with_clock (t : Q) (w : world) : world :=
  {| clock := t; requests := requests w; log := log w;
     store_get_folder_name := store_get_folder_name w;
     store_list_folders := store_list_folders w;
     store_list_images := store_list_images w;
     store_download_image_bytes := store_download_image_bytes w;
     container := container w; page := page w |}.

Definition with_requests (n : nat) (w : world) : world :=
  {| clock := clock w; requests := n; log := log w;
     store_get_folder_name := store_get_folder_name w;
     store_list_folders := store_list_folders w;
     store_list_images := store_list_images w;
     store_download_image_bytes := store_download_image_bytes w;
     container := container w; page := page w |}.

Definition with_page (c : container_ref) (p : list (container_ref * element))
  (w : world) : world :=
  {| clock := clock w; requests := requests w; log := log w;
     store_get_folder_name := store_get_folder_name w;
     store_list_folders := store_list_folders w;
     store_list_images := store_list_images w;
     store_download_image_bytes := store_download_image_bytes w;
     container := c; page := p |}.

Definition emit (ev : event) : M unit :=
  fun w => (Returned tt, with_log (log w ++ [ev]) w).

(** Time passes. *)
Definition advance (d : Q) (w : world) : world :=
  with_clock (clock w + d)%Q w.

(** [time.sleep(d)] *)
Definition time_sleep (d : Q) : M unit :=
  fun w => emit (Sleep d) (advance d w).

(** A call of the service: its rank is returned and the count grows. *)
Definition request (ev : event) : M nat :=
  fun w => (Returned (requests w),
            with_requests (S (requests w)) (with_log (log w ++ [ev]) w)).

(** ** The retry loop around the download *)

Section Download.
Variable drive : drive_service.

(** [while not done: _, done = downloader.next_chunk()], then
    [fh.getvalue()]. *)
Fixpoint next_chunks (t : transfer) (fh : bytes) : M bytes :=
  match t with
  | NextChunk data rest =>
      emit NextChunkCall ;;; next_chunks rest (fh ++ data)
  | NextChunkDone data =>
      emit NextChunkCall ;;; ret (fh ++ data)
  | NextChunkRaises e =>
      emit NextChunkCall ;;; emit (Raises e) ;;; raise e
  end.

(** The body of the [try]: one attempt. *)
Definition attempt_download (file_id : string) : M bytes :=
  k <- request (GetMedia file_id) ;;
  next_chunks (get_media drive file_id k) [].

(** [raise last_error] *)
Definition raise_last_error {A} (last_error : option exn) : M A :=
  match last_error with
  | Some e => raise e
  | None => raise TypeError_raise_None
  end.

(** [for attempt in range(3): try: ... except ssl.SSLError ... except
    Exception ...], followed by [raise last_error]. *)
Fixpoint retry_loop (range : list nat) (file_id : string)
  (last_error : option exn) : M bytes :=
  match range with
  | [] => raise_last_error last_error
  | _attempt :: range' =>
      fun w =>
        match attempt_download file_id w with
        | (Returned b, w') => (Returned b, w')
        | (Raised e, w') =>
            if is_SSLError e then
              (time_sleep 0.8%Q ;;; retry_loop range' file_id (Some e)) w'
            else if is_Exception e then
              (time_sleep 0.5%Q ;;; retry_loop range' file_id (Some e)) w'
            else (Raised e, w')
        end
  end.

(** The function [download_image_bytes] before it is decorated. *)
Definition download_image_bytes_wrapped (file_id : string) : M bytes :=
  retry_loop (seq 0 3) file_id None.

End Download.

(** Number of download attempts in a log. *)
Definition attempts_in (l : list event) : nat :=
  List.length (List.filter (fun ev => match ev with GetMedia _ => true | _ => false end) l).

(** ** The cached query layer ([st.cache_data]) *)

Definition value_of (f : cached_fn) : Type :=
  match f with
  | GetFolderName => string
  | ListFolders => list Folder
  | ListImages => list ImageDescriptor
  | DownloadImageBytes => bytes
  end.

Definition store_of (f : cached_fn) (w : world) : gmap string (value_of f * Q) :=
  match f return gmap string (value_of f * Q) with
  | GetFolderName => store_get_folder_name w
  | ListFolders => store_list_folders w
  | ListImages => store_list_images w
  | DownloadImageBytes => store_download_image_bytes w
  end.

Definition with_store (f : cached_fn) (s : gmap string (value_of f * Q))
  (w : world) : world :=
  match f return gmap string (value_of f * Q) -> world with
  | GetFolderName => fun s =>
      {| clock := clock w; requests := requests w; log := log w;
         store_get_folder_name := s;
         store_list_folders := store_list_folders w;
         store_list_images := store_list_images w;
         store_download_image_bytes := store_download_image_bytes w;
         container := container w; page := page w |}
  | ListFolders => fun s =>
      {| clock := clock w; requests := requests w; log := log w;
         store_get_folder_name := store_get_folder_name w;
         store_list_folders := s;
         store_list_images := store_list_images w;
         store_download_image_bytes := store_download_image_bytes w;
         container := container w; page := page w |}
  | ListImages => fun s =>
      {| clock := clock w; requests := requests w; log := log w;
         store_get_folder_name := store_get_folder_name w;
         store_list_folders := store_list_folders w;
         store_list_images := s;
         store_download_image_bytes := store_download_image_bytes w;
         container := container w; page := page w |}
  | DownloadImageBytes => fun s =>
      {| clock := clock w; requests := requests w; log := log w;
         store_get_folder_name := store_get_folder_name w;
         store_list_folders := store_list_folders w;
         store_list_images := store_list_images w;
         store_download_image_bytes := s;
         container := container w; page := page w |}
  end s.

(** The [ttl] argument of each decorator: [ttl=300] on the folder-name and
    list functions, none on [download_image_bytes]. *)
Definition ttl (f : cached_fn) : option Q :=
  match f with
  | GetFolderName => Some 300%Q
  | ListFolders => Some 300%Q
  | ListImages => Some 300%Q
  | DownloadImageBytes => None
  end.

(** An entry stored at [stored_at] is still served at time [now]. *)
Definition fresh (f : cached_fn) (stored_at now : Q) : bool :=
  match ttl f with
  | None => true
  | Some t => if Qlt_le_dec now (stored_at + t)%Q then true else false
  end.

Definition lookup_fresh (f : cached_fn) (arg : string) (w : world)
  : option (value_of f) :=
  match store_of f w !! arg with
  | Some (v, stored_at) => if fresh f stored_at (clock w) then Some v else None
  | None => None
  end.

Definition store_value (f : cached_fn) (arg : string) (v : value_of f) : M unit :=
  fun w => (Returned tt, with_store f (<[arg := (v, clock w)]> (store_of f w)) w).

(** [st.cache_data.clear()] *)
Definition cache_data_clear : M unit :=
  fun w => (Returned tt,
            {| clock := clock w; requests := requests w; log := log w;
               store_get_folder_name := ∅;
               store_list_folders := ∅;
               store_list_images := ∅;
               store_download_image_bytes := ∅;
               container := container w; page := page w |}).

Definition KeyError_name : exn :=
  {| exn_class_of := OtherException; exn_str := "'name'" |}.

(** The answer of a request: a raise of the service is logged. *)
Definition execute {A} (answer : result A) : M A :=
  match answer with
  | Returned a => ret a
  | Raised e => emit (Raises e) ;;; raise e
  end.

Section CachedQueries.
Variable drive : drive_service.

Definition get_folder_name_wrapped (folder_id : string) : M string :=
  k <- request (FilesGet folder_id) ;;
  meta <- execute (files_get drive folder_id k) ;;
  match meta with
  | Some name => ret name
  | None => raise KeyError_name
  end.

Definition list_folders_wrapped (parent_id : string) : M (list Folder) :=
  let q := ("'" +:+ parent_id +:+
    "' in parents and mimeType='application/vnd.google-apps.folder' and trashed=false")%string in
  k <- request (FilesList q) ;;
  results <- execute (files_list_folders drive parent_id k) ;;
  ret (default [] results).

Definition list_images_wrapped (parent_id : string) : M (list ImageDescriptor) :=
  let q := ("'" +:+ parent_id +:+
    "' in parents and (mimeType contains 'image/') and trashed=false")%string in
  k <- request (FilesList q) ;;
  results <- execute (files_list_images drive parent_id k) ;;
  ret (default [] results).

(** The function each decorator wraps. *)
Definition wrapped (f : cached_fn) : string -> M (value_of f) :=
  match f return string -> M (value_of f) with
  | GetFolderName => get_folder_name_wrapped
  | ListFolders => list_folders_wrapped
  | ListImages => list_images_wrapped
  | DownloadImageBytes => download_image_bytes_wrapped drive
  end.

(** A call of a function decorated with [st.cache_data]: a fresh entry is
    returned as it is, without running anything; otherwise the wrapped
    function runs and, when it returns, its value is stored with the current
    time.  A raise of the wrapped function goes to the caller and stores
    nothing. *)
Definition cache_data (f : cached_fn) (arg : string) : M (value_of f) :=
  fun w =>
    match lookup_fresh f arg w with
    | Some v => (Returned v, w)
    | None =>
        (emit (Enter f arg) ;;;
         v <- wrapped f arg ;;
         store_value f arg v ;;;
         ret v) w
    end.

Definition get_folder_name : string -> M string := cache_data GetFolderName.
Definition list_folders : string -> M (list Folder) := cache_data ListFolders.
Definition list_images : string -> M (list ImageDescriptor) := cache_data ListImages.
Definition download_image_bytes : string -> M bytes := cache_data DownloadImageBytes.

(** Repeated calls [f(arg)], the user idling [d] seconds between one call
    and the next, for each [d] of [waits]; for every call, the time it was
    made at and what it gave. *)
Fixpoint repeated_calls (f : cached_fn) (arg : string) (waits : list Q)
  (w : world) : list (Q * result (value_of f)) * world :=
  let '(r, w1) := cache_data f arg w in
  match waits with
  | [] => ([(clock w, r)], w1)
  | d :: waits' =>
      let '(rs, w2) := repeated_calls f arg waits' (advance d w1) in
      ((clock w, r) :: rs, w2)
  end.

End CachedQueries.

(** Number of runs of the function wrapped by [f], on [arg], in a log. *)
Definition cached_fn_eqb (f g : cached_fn) : bool :=
  match f, g with
  | GetFolderName, GetFolderName | ListFolders, ListFolders
  | ListImages, ListImages | DownloadImageBytes, DownloadImageBytes => true
  | _, _ => false
  end.

Definition runs_in (f : cached_fn) (arg : string) (l : list event) : nat :=
  List.length (List.filter (fun ev =>
    match ev with
    | Enter g a => cached_fn_eqb f g && String.eqb arg a
    | _ => false
    end) l).


(** ** The gallery renderer *)

Definition st_write (el : element) : M unit :=
  fun w => (Returned tt,
            with_page (container w) (page w ++ [(container w, el)]) w).

Definition st_error (body : string) : M unit := st_write (StError body).

Definition st_caption (body : string) : M unit := st_write (StCaption body).

(** [with c: body]: [st] calls of [body] write to [c]; the former container
    is current again afterwards, also when [body] raises. *)
Definition with_container {A} (c : container_ref) (body : M A) : M A :=
  fun w =>
    let '(r, w') := body (with_page c (page w) w) in
    (r, with_page (container w) (page w') w').

Definition IndexError : exn :=
  {| exn_class_of := OtherException; exn_str := "list index out of range" |}.

(** The default of the parameter [max_size]. *)
Definition default_max_size : Z * Z := (2000, 2000)%Z.

Section Renderer.
Variable drive : drive_service.
Variable pil : imaging.
Variable st : streamlit.

(** [st.image(pil_img, caption=..., use_container_width=True)]: the picture
    is written to the page unless encoding it raises. *)
Definition st_image (img : pil_image) (caption : string) : M unit :=
  match st_image_raises st img with
  | Some e => raise e
  | None => st_write (StImage img caption)
  end.

(** [st.columns(spec)] for an integer [spec]. *)
Definition st_columns (spec : Z) : M (list container_ref) :=
  if (spec <=? 0)%Z then raise (StreamlitInvalidColumnSpecError st)
  else ret (map Column (seq 0 (Z.to_nat spec))).

(** Fetch, decode and downscale: the [try] body up to [st.image]. *)
Definition load_image (img : ImageDescriptor) (max_size : Z * Z) : M pil_image :=
  img_bytes <- download_image_bytes drive (image_id img) ;;
  pil_img <- execute (Image_open pil img_bytes) ;;
  execute (Image_thumbnail pil pil_img max_size).

(** The whole [try] body, giving the picture it has displayed. *)
Definition show_image (img : ImageDescriptor) (max_size : Z * Z) : M pil_image :=
  pil_img <- load_image img max_size ;;
  st_image pil_img (image_name img) ;;;
  ret pil_img.

(** The [try] statement of the loop body. *)
Definition render_image (img : ImageDescriptor) (max_size : Z * Z) : M unit :=
  try_except_Exception
    (pil_img <- load_image img max_size ;;
     st_image pil_img (image_name img))
    (fun e =>
       st_error ("Failed to load: " +:+ image_name img) ;;;
       st_caption (exn_str e)).

(** [for i, img in enumerate(images): with columns[i % cols]: ...] from
    index [i] on. *)
Fixpoint render_loop (columns : list container_ref) (cols : Z)
  (max_size : Z * Z) (i : nat) (images : list ImageDescriptor) : M unit :=
  match images with
  | [] => ret tt
  | img :: images' =>
      match columns !! Z.to_nat (Z.of_nat i mod cols) with
      | None => raise IndexError
      | Some c =>
          with_container c (render_image img max_size) ;;;
          render_loop columns cols max_size (S i) images'
      end
  end.

Definition render_gallery (images : list ImageDescriptor) (cols : Z)
  (max_size : Z * Z) : M unit :=
  columns <- st_columns cols ;;
  render_loop columns cols max_size 0 images.

(** What the [try] body gives for each image of a page, in the world the
    loop has reached when it comes to that image: the picture displayed, or
    the object that fetching, decoding or displaying raised. *)
Fixpoint try_outcomes (columns : list container_ref) (cols : Z)
  (max_size : Z * Z) (i : nat) (images : list ImageDescriptor) (w : world)
  : list (result pil_image) :=
  match images with
  | [] => []
  | img :: images' =>
      match columns !! Z.to_nat (Z.of_nat i mod cols) with
      | None => []
      | Some c =>
          let r := fst (show_image img max_size (with_page c (page w) w)) in
          match with_container c (render_image img max_size) w with
          | (Returned _, w') =>
              r :: try_outcomes columns cols max_size (S i) images' w'
          | (Raised _, _) => [r]
          end
      end
  end.

(** What fetching and decoding gives for each image of a page, in the
    world the loop has reached when it comes to that image. *)
Fixpoint load_outcomes (columns : list container_ref) (cols : Z)
  (max_size : Z * Z) (i : nat) (images : list ImageDescriptor) (w : world)
  : list (result pil_image) :=
  match images with
  | [] => []
  | img :: images' =>
      match columns !! Z.to_nat (Z.of_nat i mod cols) with
      | None => []
      | Some c =>
          let r := fst (load_image img max_size (with_page c (page w) w)) in
          match with_container c (render_image img max_size) w with
          | (Returned _, w') =>
              r :: load_outcomes columns cols max_size (S i) images' w'
          | (Raised _, _) => [r]
          end
      end
  end.

End Renderer.

(** The cell an image takes in the page: the picture with its caption, or
    the error with the message of the exception. *)
Inductive cell :=
| ImageCell (img : pil_image) (caption : string)
| ErrorCell (name : string) (message : string).

Definition cell_elements (c : cell) : list element :=
  match c with
  | ImageCell img caption => [StImage img caption]
  | ErrorCell name message =>
      [StError ("Failed to load: " +:+ name); StCaption message]
  end.

Definition is_image_cell (c : cell) : bool :=
  match c with ImageCell _ _ => true | ErrorCell _ _ => false end.

(** The elements of the cells [cs], the first of them being the cell of the
    image of index [i], each in the column [index mod cols]. *)
Fixpoint grid_from (cols : Z) (i : nat) (cs : list cell)
  : list (container_ref * element) :=
  match cs with
  | [] => []
  | c :: cs' =>
      map (pair (Column (Z.to_nat (Z.of_nat i mod cols)))) (cell_elements c)
      ++ grid_from cols (S i) cs'
  end.

(** The cell that the [try] statement writes for an image whose [try] body
    gave [r]; none when [r] is a raise that the handler does not catch. *)
Definition cell_of (img : ImageDescriptor) (r : result pil_image) : option cell :=
  match r with
  | Returned pil_img => Some (ImageCell pil_img (image_name img))
  | Raised e =>
      if is_Exception e then Some (ErrorCell (image_name img) (exn_str e))
      else None
  end.

(** The cells written for a page, up to the first raise that is not
    caught. *)
Fixpoint cells_of (images : list ImageDescriptor) (outs : list (result pil_image))
  : list cell :=
  match images, outs with
  | img :: images', r :: outs' =>
      match cell_of img r with
      | Some c => c :: cells_of images' outs'
      | None => []
      end
  | _, _ => []
  end.

(** An outcome that the handler of the renderer deals with. *)
Definition handled (o : result pil_image) : Prop :=
  match o with Returned _ => True | Raised e => is_Exception e = true end.

(** The picture cells of decoded images. *)
Definition image_cells (pils : list pil_image) (images : list ImageDescriptor)
  : list cell :=
  zip_with (fun pil_img img => ImageCell pil_img (image_name img)) pils images.

(** ** Strings

    A Python [str] is a sequence of code points.  Names and search texts
    are modelled by their UTF-8 encoding, a string of bytes: [in] is then
    the substring test on bytes and [<] the order on bytes, as they are on
    code points. *)

(** Truth value of a string: [if search:] *)
Definition nonempty (s : string) : bool :=
  match s with EmptyString => false | _ => true end.

(** [s.isascii()] *)
Fixpoint isascii (s : string) : bool :=
  match s with
  | EmptyString => true
  | String c s' => (nat_of_ascii c <? 128)%nat && isascii s'
  end.

(** [c.lower()] for an ASCII character: [A]..[Z] go to [a]..[z]. *)
Definition ascii_lower_char (c : ascii) : ascii :=
  let n := nat_of_ascii c in
  if (65 <=? n)%nat && (n <=? 90)%nat then ascii_of_nat (n + 32) else c.

(** [s.lower()] for an ASCII string. *)
Fixpoint ascii_lower (s : string) : string :=
  match s with
  | EmptyString => EmptyString
  | String c s' => String (ascii_lower_char c) (ascii_lower s')
  end.

(** [str.lower] follows the case tables of Unicode (and, for the capital
    sigma, looks at the letters around it).  The tables are not reproduced:
    the function is taken as given, with two facts about it.  On an ASCII
    string it lowers the letters [A] to [Z] and changes nothing else, and it
    lowers no string other than the empty one to the empty string. *)
Record unicode_data := {
  str_lower : string -> string;
  str_lower_isascii : forall s, isascii s = true -> str_lower s = ascii_lower s;
  str_lower_nonempty : forall s, nonempty (str_lower s) = nonempty s
}.

(** [c.isspace()] for the white space that takes one byte: U+0009 to
    U+000D, U+001C to U+001F and the space U+0020. *)
Definition isspace1 (c : ascii) : bool :=
  let n := nat_of_ascii c in
  ((9 <=? n)%nat && (n <=? 13)%nat) || ((28 <=? n)%nat && (n <=? 32)%nat).

(** The white space that takes two bytes: U+0085 ([C2 85]) and U+00A0
    ([C2 A0]). *)
Definition isspace2 (c1 c2 : ascii) : bool :=
  let n1 := nat_of_ascii c1 in
  let n2 := nat_of_ascii c2 in
  (n1 =? 194)%nat && ((n2 =? 133)%nat || (n2 =? 160)%nat).

(** The white space that takes three bytes: U+1680 ([E1 9A 80]), U+2000 to
    U+200A ([E2 80 80] to [E2 80 8A]), U+2028 and U+2029 ([E2 80 A8],
    [E2 80 A9]), U+202F ([E2 80 AF]), U+205F ([E2 81 9F]) and U+3000
    ([E3 80 80]). *)
Definition isspace3 (c1 c2 c3 : ascii) : bool :=
  let n1 := nat_of_ascii c1 in
  let n2 := nat_of_ascii c2 in
  let n3 := nat_of_ascii c3 in
  ((n1 =? 225)%nat && (n2 =? 154)%nat && (n3 =? 128)%nat)
  || ((n1 =? 226)%nat && (n2 =? 128)%nat
      && (((128 <=? n3)%nat && (n3 <=? 138)%nat)
          || (n3 =? 168)%nat || (n3 =? 169)%nat || (n3 =? 175)%nat))
  || ((n1 =? 226)%nat && (n2 =? 129)%nat && (n3 =? 159)%nat)
  || ((n1 =? 227)%nat && (n2 =? 128)%nat && (n3 =? 128)%nat).

(** [s.lstrip()]: the white space characters in front are removed. *)
Fixpoint lstrip (s : string) : string :=
  match s with
  | EmptyString => EmptyString
  | String c1 s1 =>
      if isspace1 c1 then lstrip s1
      else match s1 with
           | EmptyString => s
           | String c2 s2 =>
               if isspace2 c1 c2 then lstrip s2
               else match s2 with
                    | EmptyString => s
                    | String c3 s3 =>
                        if isspace3 c1 c2 c3 then lstrip s3 else s
                    end
           end
  end.

(** [s.rstrip()]: the end of the string is stripped first; what is left is
    kept, unless it is white space from its first byte on. *)
Fixpoint rstrip (s : string) : string :=
  match s with
  | EmptyString => EmptyString
  | String c s' =>
      let r := String c (rstrip s') in
      if nonempty (lstrip r) then r else EmptyString
  end.

(** [s.strip()] *)
Definition strip (s : string) : string := rstrip (lstrip s).

(** [sub in s] *)
Fixpoint contains (sub s : string) : bool :=
  if String.prefix sub s then true
  else match s with
       | EmptyString => false
       | String _ s' => contains sub s'
       end.

(** ** Session selection (script lines 134 to 152) *)

(** [sorted(sessions, key=lambda x: x["name"], reverse=True)]: a stable
    sort, sessions of equal name keep their order. *)
Fixpoint insert_reverse (x : Folder) (l : list Folder) : list Folder :=
  match l with
  | [] => [x]
  | y :: l' =>
      if String.ltb (folder_name x) (folder_name y)
      then y :: insert_reverse x l'
      else x :: l
  end.

Definition sorted_by_name_reverse (sessions : list Folder) : list Folder :=
  foldr insert_reverse [] sessions.

(** [a] comes before [b] in descending order of name: the name of [a] is
    greater than or equal to the name of [b]. *)
Definition name_ge (a b : Folder) : Prop :=
  String.leb (folder_name b) (folder_name a) = true.

(** A session named [n] whose id is also [n]. *)
Definition session_named (n : string) : Folder :=
  {| folder_id := n; folder_name := n |}.

Section Search.
Variable u : unicode_data.

(** [st.sidebar.text_input(...).strip().lower()] on the text typed. *)
Definition search_of (text : string) : string := str_lower u (strip text).

(** [[s for s in sessions if search in s["name"].lower()]] *)
Definition matching (search : string) (sessions : list Folder) : list Folder :=
  List.filter (fun s => contains search (str_lower u (folder_name s))) sessions.

(** Lines 142 to 144. *)
Definition filter_sessions (text : string) (sessions : list Folder) : list Folder :=
  let search := search_of text in
  if nonempty search then matching search sessions else sessions.

(** [name] contains [text], the case of letters apart: the lower-cased
    text stands somewhere in the lower-cased name. *)
Definition contains_ignoring_case (text name : string) : Prop :=
  exists pre post,
    str_lower u name = (pre +:+ str_lower u text +:+ post)%string.

End Search.

(** [st.sidebar.selectbox(label, options)]: the option the user picked. *)
Definition selectbox (options : list string) (choice : nat) : option string :=
  options !! choice.

(** [next(s for s in sessions if s["name"] == selected_session_name)];
    [None] stands for [StopIteration]. *)
Definition next_named (sessions : list Folder) (selected_session_name : string)
  : option Folder :=
  List.find (fun s => String.eqb (folder_name s) selected_session_name) sessions.

Inductive selection :=
| Stop (warning : string)
| StopIteration
| Selected (sessions : list Folder) (selected_session_name : string)
    (selected_session : Folder).

(** From the listed sessions, the text of the search box and the choice in
    the session selector, to the selected session. *)
Definition select_session (u : unicode_data) (listed : list Folder)
  (text : string) (choice : nat) : selection :=
  match listed with
  | [] => Stop "No session folders found in this Studio folder."
  | _ =>
      let sessions := sorted_by_name_reverse listed in
      let sessions := filter_sessions u text sessions in
      match sessions with
      | [] => Stop "No sessions match your search."
      | _ =>
          let session_names := map folder_name sessions in
          match selectbox session_names choice with
          | None => StopIteration
          | Some selected_session_name =>
              match next_named sessions selected_session_name with
              | None => StopIteration
              | Some selected_session =>
                  Selected sessions selected_session_name selected_session
              end
          end
      end
  end.

(** ** Pagination (script lines 165 to 176) *)

(** [l[start:stop]] *)
Definition py_slice {A} (l : list A) (start stop : Z) : list A :=
  let len := Z.of_nat (List.length l) in
  let norm i := if (i <? 0)%Z then Z.max (i + len) 0 else Z.min i len in
  firstn (Z.to_nat (norm stop - norm start)) (skipn (Z.to_nat (norm start)) l).

(** Widget state.  The script gives its widgets no [key] and keeps nothing
    in [st.session_state]: Streamlit then identifies a widget by its label
    and its parameters (here minimum, maximum and default value), and holds
    the value the user gave it under that identity.  A widget whose
    parameters have changed is another widget. *)
Definition widget_id : Type := string * Z * Z * Z.

(** The value of a number widget: what the session holds for its
    identity, else its default. *)
Definition widget_value (id : widget_id) (session : gmap widget_id Z) : Z :=
  default (id.2) (session !! id).

(** [st.sidebar.slider(label, min_value, max_value, value)] *)
Definition slider (label : string) (min_value max_value value : Z)
  (session : gmap widget_id Z) : Z :=
  widget_value (label, min_value, max_value, value) session.

(** [st.sidebar.number_input(label, min_value=, max_value=, value=)] *)
Definition number_input (label : string) (min_value max_value value : Z)
  (session : gmap widget_id Z) : Z :=
  widget_value (label, min_value, max_value, value) session.

Definition cols_id : widget_id := ("🧱 Gallery Columns"%string, 2, 6, 4)%Z.
Definition page_size_id : widget_id := ("📄 Images per page"%string, 10, 100, 30)%Z.
Definition page_id (total_pages : Z) : widget_id :=
  ("📌 Page"%string, 1, total_pages, 1)%Z.

(** [max(1, (total + page_size - 1) // page_size)] *)
Definition total_pages (total page_size : Z) : Z :=
  Z.max 1 ((total + page_size - 1) / page_size).

Record pagination := {
  cols : Z;
  page_size : Z;
  pages : Z;
  page_number : Z;
  start : Z;
  end_ : Z
}.

(** Lines 165 to 175 for [total] images and a widget session. *)
Definition paginate (total : Z) (session : gmap widget_id Z) : pagination :=
  let cols := slider "🧱 Gallery Columns" 2 6 4 session in
  let page_size := slider "📄 Images per page" 10 100 30 session in
  let total_pages := total_pages total page_size in
  let page := number_input "📌 Page" 1 total_pages 1 session in
  let start := ((page - 1) * page_size)%Z in
  let end_ := Z.min (start + page_size) total in
  {| cols := cols; page_size := page_size; pages := total_pages;
     page_number := page; start := start; end_ := end_ |}.

(** [images[start:end]] *)
Definition images_page {A} (images : list A) (session : gmap widget_id Z) : list A :=
  let p := paginate (Z.of_nat (List.length images)) session in
  py_slice images (start p) (end_ p).

(** The widgets a run has drawn; when the run ends Streamlit drops the
    state of every other widget. *)
Definition drawn (total : Z) (session : gmap widget_id Z) : list widget_id :=
  [cols_id; page_size_id; page_id (pages (paginate total session))].

Definition end_of_run (total : Z) (session : gmap widget_id Z) : gmap widget_id Z :=
  filter (fun kv => kv.1 ∈ drawn total session) session.

(** The user moves a widget to [v]; the browser offers only values between
    the bounds of the widget. *)
Definition user_sets (id : widget_id) (v : Z) (session : gmap widget_id Z)
  : gmap widget_id Z :=
  <[id := v]> session.

(** Every value of the session is between the bounds of its widget. *)
Definition in_bounds (session : gmap widget_id Z) : Prop :=
  forall label lo hi dflt v,
    session !! (label, lo, hi, dflt) = Some v -> (lo <= v <= hi)%Z.

(** ** Studio selection (script lines 125 to 129) *)

(** A [dict] from strings to strings: its items, in the order in which the
    keys were first set.  [d[k] = v] *)
Fixpoint dict_set (k v : string) (d : list (string * string))
  : list (string * string) :=
  match d with
  | [] => [(k, v)]
  | (k', v') :: d' =>
      if String.eqb k' k then (k', v) :: d' else (k', v') :: dict_set k v d'
  end.

(** [d[k]]; [None] stands for [KeyError]. *)
Fixpoint dict_get (k : string) (d : list (string * string)) : option string :=
  match d with
  | [] => None
  | (k', v') :: d' => if String.eqb k' k then Some v' else dict_get k d'
  end.

Section Roots.
Variable drive : drive_service.

(** [{get_folder_name(fid): fid for fid in ROOT_FOLDER_IDS}], from the
    items set so far. *)
Fixpoint root_map_from (ROOT_FOLDER_IDS : list string)
  (root_map : list (string * string)) : M (list (string * string)) :=
  match ROOT_FOLDER_IDS with
  | [] => ret root_map
  | fid :: rest =>
      name <- get_folder_name drive fid ;;
      root_map_from rest (dict_set name fid root_map)
  end.

Definition root_map (ROOT_FOLDER_IDS : list string) : M (list (string * string)) :=
  root_map_from ROOT_FOLDER_IDS [].

(** The names that the calls of the comprehension return, in turn. *)
Fixpoint folder_names (ROOT_FOLDER_IDS : list string) : M (list string) :=
  match ROOT_FOLDER_IDS with
  | [] => ret []
  | fid :: rest =>
      name <- get_folder_name drive fid ;;
      names <- folder_names rest ;;
      ret (name :: names)
  end.

End Roots.

(** [sorted(names)] *)
Fixpoint insert_sorted (x : string) (l : list string) : list string :=
  match l with
  | [] => [x]
  | y :: l' => if String.ltb y x then y :: insert_sorted x l' else x :: l
  end.

Definition sorted_strings (names : list string) : list string :=
  foldr insert_sorted [] names.

(** [sorted(root_map.keys())] *)
Definition root_names (root_map : list (string * string)) : list string :=
  sorted_strings (map fst root_map).

Definition KeyError_None : exn :=
  {| exn_class_of := OtherException; exn_str := "None" |}.

(** Lines 128 and 129: the studio picked in the selector and
    [root_map[selected_root_name]]; with no studio to pick the selector
    gives [None], which is no key of the map. *)
Definition select_root (root_map : list (string * string)) (choice : nat)
  : result (string * string) :=
  match selectbox (root_names root_map) choice with
  | None => Raised KeyError_None
  | Some selected_root_name =>
      match dict_get selected_root_name root_map with
      | Some selected_root_id => Returned (selected_root_name, selected_root_id)
      | None =>
          Raised {| exn_class_of := OtherException;
                    exn_str := ("'" +:+ selected_root_name +:+ "'")%string |}
      end
  end.

(** All the items of [pairs] set in turn. *)
Definition dict_set_all (d : list (string * string))
  (pairs : list (string * string)) : list (string * string) :=
  foldl (fun d p => dict_set p.1 p.2 d) d pairs.

(** ** Reading a log *)

(** The events of one transfer. *)
Fixpoint chunk_calls (t : transfer) : list event :=
  match t with
  | NextChunk _ rest => NextChunkCall :: chunk_calls rest
  | NextChunkDone _ => [NextChunkCall]
  | NextChunkRaises e => [NextChunkCall; Raises e]
  end.

(** The events logged between the world [w] and a later world [w']. *)
Definition events_since (w w' : world) : list event :=
  drop (List.length (log w)) (log w').

(** What follows each raise in a log: 0.8 after an SSL error, 0.5 after
    another instance of [Exception]. *)
Fixpoint backoff_ok (l : list event) : Prop :=
  match l with
  | [] => True
  | Raises e :: rest =>
      (if is_SSLError e then head rest = Some (Sleep 0.8%Q)
       else if is_Exception e then head rest = Some (Sleep 0.5%Q)
       else True) /\ backoff_ok rest
  | _ :: rest => backoff_ok rest
  end.

(** An event that marks the run of a wrapped function. *)
Definition is_Enter (ev : event) : bool :=
  match ev with Enter _ _ => true | _ => false end.

(** From [w] to [w'] no store has changed, nothing has been written to the
    page, no wrapped function has been entered, and time has not gone
    back. *)
Definition quiet_step (w w' : world) : Prop :=
  (forall f, store_of f w' = store_of f w) /\
  (container w' = container w /\ page w' = page w) /\
  (clock w <= clock w')%Q /\
  exists l, log w' = log w ++ l /\ Forall (fun ev => is_Enter ev = false) l.

Definition quiet {A} (m : M A) : Prop := forall w, quiet_step w (m w).2.

(** The time of the last of a sequence of calls. *)
Definition last_time {A} (rs : list (Q * A)) : Q :=
  List.last (map fst rs) 0%Q.

(** The bytes a transfer delivers: its chunks, in order. *)
Fixpoint transfer_data (t : transfer) : bytes :=
  match t with
  | NextChunk data rest => data ++ transfer_data rest
  | NextChunkDone data => data
  | NextChunkRaises _ => []
  end.

(** Number of sleeps in a log. *)
Definition sleeps_in (l : list event) : nat :=
  List.length (List.filter (fun ev => match ev with Sleep _ => true | _ => false end) l).

(** The longest time a loop over [range] can sleep: 0.8 for each turn. *)
Fixpoint worst_delay (range : list nat) : Q :=
  match range with
  | [] => 0%Q
  | _ :: range' => (0.8 + worst_delay range')%Q
  end.

(** A computation that forgets no stored image: whatever file has its
    bytes stored before has them stored afterwards. *)
Definition keeps_bytes {A} (m : M A) : Prop :=
  forall w a, is_Some (store_download_image_bytes w !! a) ->
              is_Some (store_download_image_bytes (m w).2 !! a).

(** ** Scenarios *)

(** The world when the process starts. *)
Definition initial_world : world :=
  {| clock := 0%Q; requests := 0; log := [];
     store_get_folder_name := ∅;
     store_list_folders := ∅;
     store_list_images := ∅;
     store_download_image_bytes := ∅;
     container := Main; page := [] |}.

Definition an_SSLError : exn :=
  {| exn_class_of := SSLError; exn_str := "EOF occurred in violation of protocol" |}.

Definition a_ConnectionError : exn :=
  {| exn_class_of := OtherException; exn_str := "Connection reset by peer" |}.

Definition a_KeyboardInterrupt : exn :=
  {| exn_class_of := NotAnException; exn_str := "" |}.

(** A service on which every download breaks, in turn with an SSL error
    and with a connection error; no folder answers. *)
Definition broken_drive : drive_service :=
  {| files_get := fun _ _ => Raised a_ConnectionError;
     files_list_folders := fun _ _ => Raised a_ConnectionError;
     files_list_images := fun _ _ => Raised a_ConnectionError;
     get_media := fun _ k =>
       if Nat.even k then NextChunkRaises an_SSLError
       else NextChunk [] (NextChunkRaises a_ConnectionError) |}.

(** A service that answers, except for the file ["photo-2"], whose every
    download breaks with an SSL error. *)
Definition demo_images : list ImageDescriptor :=
  [ {| image_id := "photo-1"; image_name := "IMG_0001.jpg"; image_mimeType := "image/jpeg" |};
    {| image_id := "photo-2"; image_name := "IMG_0002.jpg"; image_mimeType := "image/jpeg" |};
    {| image_id := "photo-3"; image_name := "IMG_0003.jpg"; image_mimeType := "image/jpeg" |} ].

Definition demo_drive : drive_service :=
  {| files_get := fun _ _ => Returned (Some "Studio A"%string);
     files_list_folders := fun _ _ =>
       Returned (Some [ {| folder_id := "s1"; folder_name := "2024-01-10" |};
                        {| folder_id := "s2"; folder_name := "2024-03-05" |} ]);
     files_list_images := fun _ _ => Returned (Some demo_images);
     get_media := fun file _ =>
       if String.eqb file "photo-2" then NextChunkRaises an_SSLError
       else NextChunk [Byte.xff] (NextChunkDone [Byte.xd8]) |}.

(** An imaging library that decodes everything to a 4000 x 3000 picture
    and halves it. *)
Definition demo_pil : imaging :=
  {| Image_open := fun b =>
       Returned {| pil_width := 4000; pil_height := 3000; pil_source := b |};
     Image_thumbnail := fun img _ =>
       Returned {| pil_width := 2000; pil_height := 1500;
                   pil_source := pil_source img |} |}.

(** Case tables with the ASCII letters only: [str.lower] as it is on ASCII
    text, which is what the names and the texts of the examples are. *)
Definition ascii_only : unicode_data :=
  {| str_lower := ascii_lower;
     str_lower_isascii := fun _ _ => eq_refl;
     str_lower_nonempty := fun s =>
       match s with EmptyString => eq_refl | String _ _ => eq_refl end |}.

(** A Streamlit that displays every picture.  With two or four columns,
    as below, [st.columns] does not raise; its error is given no text. *)
Definition demo_st : streamlit :=
  {| st_image_raises := fun _ => None;
     StreamlitInvalidColumnSpecError :=
       {| exn_class_of := OtherException; exn_str := "" |} |}.

(** A page whose third image is a scan in 32-bit floating point: the
    service delivers it and the imaging library decodes it, but
    [st.image] cannot encode it. *)
Definition scan_images : list ImageDescriptor :=
  [ {| image_id := "photo-1"; image_name := "IMG_0001.jpg"; image_mimeType := "image/jpeg" |};
    {| image_id := "photo-2"; image_name := "IMG_0002.jpg"; image_mimeType := "image/jpeg" |};
    {| image_id := "scan-1"; image_name := "scan-1.tif"; image_mimeType := "image/tiff" |} ].

Definition scan_drive : drive_service :=
  {| files_get := fun _ _ => Returned (Some "Studio A"%string);
     files_list_folders := fun _ _ => Returned None;
     files_list_images := fun _ _ => Returned (Some scan_images);
     get_media := fun file _ =>
       if String.eqb file "photo-2" then NextChunkRaises an_SSLError
       else if String.eqb file "scan-1"
       then NextChunkDone [Byte.x49; Byte.x49; Byte.x2a; Byte.x00]
       else NextChunk [Byte.xff] (NextChunkDone [Byte.xd8]) |}.

Definition an_OSError : exn :=
  {| exn_class_of := OtherException; exn_str := "cannot write mode F as JPEG" |}.

(** A Streamlit that cannot display the pictures decoded from a TIFF file
    (a file that starts with the bytes [49 49 2A 00]). *)
Definition no_float_st : streamlit :=
  {| st_image_raises := fun img =>
       match pil_source img with
       | [Byte.x49; Byte.x49; Byte.x2a; Byte.x00] => Some an_OSError
       | _ => None
       end;
     StreamlitInvalidColumnSpecError :=
       {| exn_class_of := OtherException; exn_str := "" |} |}.

(** A session in which the user has chosen 10 images per page and, of the
    10 pages that 95 images then make, the last one. *)
Definition on_last_of_ten_pages : gmap widget_id Z :=
  <[page_id 10 := 10%Z]> (<[page_size_id := 10%Z]> ∅).

(** Two sessions of the same name, listed around a third one. *)
Definition twin_sessions : list Folder :=
  [ {| folder_id := "id-a"; folder_name := "2024-01-10" |};
    {| folder_id := "id-b"; folder_name := "2024-03-05" |};
    {| folder_id := "id-c"; folder_name := "2024-01-10" |} ].

(** A service whose downloads are interrupted from the keyboard. *)
Definition interrupted_drive : drive_service :=
  {| files_get := fun _ _ => Raised a_KeyboardInterrupt;
     files_list_folders := fun _ _ => Raised a_KeyboardInterrupt;
     files_list_images := fun _ _ => Raised a_KeyboardInterrupt;
     get_media := fun _ _ => NextChunkRaises a_KeyboardInterrupt |}.

(** A service on which the first download attempt breaks with an SSL error
    and the following ones deliver two chunks. *)
Definition flaky_drive : drive_service :=
  {| files_get := fun _ _ => Returned (Some "Studio A"%string);
     files_list_folders := fun _ _ => Returned None;
     files_list_images := fun _ _ => Returned None;
     get_media := fun _ k =>
       match k with
       | 0 => NextChunk [Byte.xff] (NextChunkRaises an_SSLError)
       | _ => NextChunk [Byte.x89] (NextChunkDone [Byte.x50])
       end |}.

(** A world five minutes after the (then empty) list of the sessions of a
    studio was stored. *)
Definition five_minutes_later : world :=
  {| clock := 300%Q; requests := 1; log := [];
     store_get_folder_name := ∅;
     store_list_folders := {[ "studio-a"%string := ([], 0%Q) ]};
     store_list_images := ∅;
     store_download_image_bytes := ∅;
     container := Main; page := [] |}.

(** A service with two studios of the same name, ["root-1"] and
    ["root-3"], and a third one between them. *)
Definition twin_studios_drive : drive_service :=
  {| files_get := fun fid _ =>
       if String.eqb fid "root-2" then Returned (Some "Busan"%string)
       else Returned (Some "Seoul"%string);
     files_list_folders := fun _ _ => Returned None;
     files_list_images := fun _ _ => Returned None;
     get_media := fun _ _ => NextChunkDone [] |}.

(** A service that knows the studio ["root-1"] only. *)
Definition one_studio_drive : drive_service :=
  {| files_get := fun fid _ =>
       if String.eqb fid "root-1" then Returned (Some "Seoul"%string)
       else Raised a_ConnectionError;
     files_list_folders := fun _ _ => Returned None;
     files_list_images := fun _ _ => Returned None;
     get_media := fun _ _ => NextChunkDone [] |}.

(** * Properties *)

(** ** The retry loop *)

Lemma time_sleep_log d w : log (time_sleep d w).2 = log w ++ [Sleep d].
Proof. reflexivity. Qed.

Lemma time_sleep_requests d w : requests (time_sleep d w).2 = requests w.
Proof. reflexivity. Qed.

Lemma time_sleep_clock d w : clock (time_sleep d w).2 = (clock w + d)%Q.
Proof. reflexivity. Qed.

Section DownloadFacts.
Variable drive : drive_service.

Lemma next_chunks_log t fh w :
  log (next_chunks t fh w).2 = log w ++ chunk_calls t.
Proof.
  revert fh w. induction t as [data rest IH|data|e]; intros fh w; cbn.
  - unfold bind; cbn. rewrite IH. cbn. by rewrite <- app_assoc.
  - reflexivity.
  - unfold bind; cbn. by rewrite <- app_assoc.
Qed.

Lemma next_chunks_requests t fh w :
  requests (next_chunks t fh w).2 = requests w.
Proof.
  revert fh w. induction t as [data rest IH|data|e]; intros fh w; cbn;
    unfold bind; cbn; [by rewrite IH|done|done].
Qed.

Lemma next_chunks_result t fh w :
  match transfer_error t with
  | Some e => (next_chunks t fh w).1 = Raised e
  | None => exists b, (next_chunks t fh w).1 = Returned b
  end.
Proof.
  revert fh w. induction t as [data rest IH|data|e]; intros fh w; cbn;
    unfold bind; cbn; [apply IH|by eexists|done].
Qed.

Lemma attempt_download_eq file_id w :
  attempt_download drive file_id w =
  next_chunks (get_media drive file_id (requests w)) []
    (with_requests (S (requests w)) (with_log (log w ++ [GetMedia file_id]) w)).
Proof. reflexivity. Qed.

Lemma attempt_download_log file_id w :
  log (attempt_download drive file_id w).2 =
  log w ++ GetMedia file_id :: chunk_calls (get_media drive file_id (requests w)).
Proof.
  rewrite attempt_download_eq, next_chunks_log. cbn. by rewrite <- app_assoc.
Qed.

Lemma attempt_download_requests file_id w :
  requests (attempt_download drive file_id w).2 = S (requests w).
Proof. by rewrite attempt_download_eq, next_chunks_requests. Qed.

Lemma attempt_download_result file_id w :
  match transfer_error (get_media drive file_id (requests w)) with
  | Some e => (attempt_download drive file_id w).1 = Raised e
  | None => exists b, (attempt_download drive file_id w).1 = Returned b
  end.
Proof. rewrite attempt_download_eq. apply next_chunks_result. Qed.

Lemma attempts_in_app l1 l2 :
  attempts_in (l1 ++ l2) = attempts_in l1 + attempts_in l2.
Proof. unfold attempts_in. by rewrite List.filter_app, List.length_app. Qed.

Lemma attempts_in_chunk_calls t : attempts_in (chunk_calls t) = 0.
Proof. induction t; cbn; auto. Qed.

(** One turn of the loop whose attempt raises an instance of
    [Exception]: the error is kept, the loop sleeps and goes on. *)
Lemma retry_loop_caught a range file_id last w e :
  (attempt_download drive file_id w).1 = Raised e ->
  is_Exception e = true ->
  retry_loop drive (a :: range) file_id last w =
  retry_loop drive range file_id (Some e)
    (time_sleep (if is_SSLError e then 0.8%Q else 0.5%Q)
       (attempt_download drive file_id w).2).2.
Proof.
  intros Hr He. cbn [retry_loop].
  destruct (attempt_download drive file_id w) as [r w1]; cbn in *; subst r.
  rewrite He. by destruct (is_SSLError e).
Qed.

Lemma retry_loop_all_fail file_id :
  (forall k, exists e,
      transfer_error (get_media drive file_id k) = Some e /\
      is_Exception e = true) ->
  forall range last w,
    let r := retry_loop drive range file_id last w in
    requests r.2 = requests w + List.length range /\
    attempts_in (log r.2) = attempts_in (log w) + List.length range /\
    exists e, r.1 = Raised e /\
      match range with
      | [] => e = match last with Some e' => e' | None => TypeError_raise_None end
      | _ => transfer_error
               (get_media drive file_id (requests w + List.length range - 1)) = Some e
      end.
Proof.
  intros Hfail range. induction range as [|a range IH]; intros last w.
  - destruct last as [e0|]; cbn; (split; [lia|split; [lia|by eexists]]).
  - destruct (Hfail (requests w)) as (e & Herr & He).
    pose proof (attempt_download_result file_id w) as Hres. rewrite Herr in Hres.
    cbv zeta. rewrite (retry_loop_caught _ _ _ _ _ _ Hres He).
    set (w2 := (time_sleep _ _).2).
    assert (Hreq : requests w2 = S (requests w))
      by (subst w2; rewrite time_sleep_requests; apply attempt_download_requests).
    assert (Hlog : attempts_in (log w2) = S (attempts_in (log w))).
    { subst w2. rewrite time_sleep_log, attempts_in_app, attempt_download_log.
      rewrite attempts_in_app.
      change (GetMedia file_id :: ?l) with ([GetMedia file_id] ++ l).
      rewrite attempts_in_app, attempts_in_chunk_calls. cbn. lia. }
    destruct (IH (Some e) w2) as (H1 & H2 & e' & H3 & H4).
    rewrite H1, H2, Hreq, Hlog. cbn [List.length].
    repeat split; [lia..|]. exists e'. split; [done|].
    destruct range as [|b range'].
    + cbn. subst e'. replace (requests w + 1 - 1) with (requests w) by lia. done.
    + cbn [List.length] in *. rewrite Hreq in H4.
      replace (requests w + S (S (List.length range')) - 1)
        with (S (requests w) + S (List.length range') - 1) by lia. done.
Qed.

Lemma retry_loop_returned a range file_id last w b :
  (attempt_download drive file_id w).1 = Returned b ->
  retry_loop drive (a :: range) file_id last w =
  (Returned b, (attempt_download drive file_id w).2).
Proof.
  intros Hr. cbn [retry_loop].
  destruct (attempt_download drive file_id w) as [r w1]; cbn in *. by subst r.
Qed.

Lemma retry_loop_escapes a range file_id last w e :
  (attempt_download drive file_id w).1 = Raised e ->
  is_Exception e = false ->
  retry_loop drive (a :: range) file_id last w =
  (Raised e, (attempt_download drive file_id w).2).
Proof.
  intros Hr He. cbn [retry_loop].
  destruct (attempt_download drive file_id w) as [r w1]; cbn in *; subst r.
  rewrite He. destruct e as [[] msg]; done.
Qed.

Lemma backoff_ok_chunk_calls t rest :
  backoff_ok (chunk_calls t ++ rest) <->
  match transfer_error t with
  | Some e => backoff_ok (Raises e :: rest)
  | None => backoff_ok rest
  end.
Proof. induction t as [data t IH|data|e]; cbn; [apply IH|done|done]. Qed.

(** The loop only adds to the log, and what it adds has the right sleep
    after every raise. *)
Lemma retry_loop_log file_id range last w :
  exists l, log (retry_loop drive range file_id last w).2 = log w ++ l /\
            backoff_ok l.
Proof.
  revert last w. induction range as [|a range IH]; intros last w.
  - exists []. split; [|done]. destruct last; cbn; by rewrite app_nil_r.
  - pose proof (attempt_download_result file_id w) as Hres.
    pose proof (attempt_download_log file_id w) as Hlog.
    set (t := get_media drive file_id (requests w)) in *.
    destruct (transfer_error t) as [e|] eqn:Herr.
    + destruct (is_Exception e) eqn:He.
      * rewrite (retry_loop_caught _ _ _ _ _ _ Hres He).
        set (d := if is_SSLError e then _ else _).
        destruct (IH (Some e) (time_sleep d (attempt_download drive file_id w).2).2)
          as (l & Hl & Hok).
        exists (GetMedia file_id :: chunk_calls t ++ Sleep d :: l). split.
        -- rewrite Hl, time_sleep_log, Hlog. by rewrite <- !app_assoc.
        -- cbn. apply backoff_ok_chunk_calls. rewrite Herr. cbn.
           split; [|done]. subst d. rewrite He. by destruct (is_SSLError e).
      * rewrite (retry_loop_escapes _ _ _ _ _ _ Hres He). cbn.
        exists (GetMedia file_id :: chunk_calls t). split; [done|].
        cbn. rewrite <- (app_nil_r (chunk_calls t)).
        apply backoff_ok_chunk_calls. rewrite Herr. cbn. rewrite He.
        destruct e as [[] msg]; done.
    + destruct Hres as [b Hres].
      rewrite (retry_loop_returned _ _ _ _ _ _ Hres). cbn.
      exists (GetMedia file_id :: chunk_calls t). split; [done|].
      cbn. rewrite <- (app_nil_r (chunk_calls t)).
      apply backoff_ok_chunk_calls. by rewrite Herr.
Qed.

End DownloadFacts.

Lemma events_since_app w w' l : log w' = log w ++ l -> events_since w w' = l.
Proof. intros H. unfold events_since. rewrite H. apply drop_app_length. Qed.

(** When every attempt raises an error, the undecorated function makes
    three attempts and raises the error of the third. *)
Lemma download_all_fail (drive : drive_service) (file_id : string) (w : world) :
  (forall k, exists e,
      transfer_error (get_media drive file_id k) = Some e /\
      is_Exception e = true) ->
  let r := download_image_bytes_wrapped drive file_id w in
  attempts_in (events_since w r.2) = 3 /\
  requests r.2 = requests w + 3 /\
  exists e, r.1 = Raised e /\
    transfer_error (get_media drive file_id (requests w + 2)) = Some e.
Proof.
  intros Hfail r. subst r. unfold download_image_bytes_wrapped.
  destruct (retry_loop_all_fail drive file_id Hfail (seq 0 3) None w)
    as (Hreq & Hatt & e & Hres & Hlast).
  destruct (retry_loop_log drive file_id (seq 0 3) None w) as (l & Hl & _).
  rewrite (events_since_app _ _ _ Hl).
  rewrite Hl, attempts_in_app in Hatt. cbn in Hatt, Hreq, Hlast.
  split; [lia|]. split; [done|]. exists e. split; [done|].
  replace (requests w + 2) with (requests w + 3 - 1) by lia. done.
Qed.

(** A raised object that is not an instance of [Exception] is caught by
    neither handler: the loop ends there, after one attempt and without a
    sleep. *)
Example interrupt_is_not_retried :
  download_image_bytes_wrapped interrupted_drive "photo-1" initial_world
  = (Raised a_KeyboardInterrupt,
     with_requests 1
       (with_log [GetMedia "photo-1"; NextChunkCall; Raises a_KeyboardInterrupt]
          initial_world)).
Proof. reflexivity. Qed.

(** ** The cached query layer *)

Lemma store_of_with_store f s w : store_of f (with_store f s w) = s.
Proof. by destruct f. Qed.

Lemma clock_with_store f s w : clock (with_store f s w) = clock w.
Proof. by destruct f. Qed.

Lemma log_with_store f s w : log (with_store f s w) = log w.
Proof. by destruct f. Qed.

Lemma requests_with_store f s w : requests (with_store f s w) = requests w.
Proof. by destruct f. Qed.

Lemma store_of_advance f d w : store_of f (advance d w) = store_of f w.
Proof. by destruct f. Qed.

Lemma quiet_step_refl w : quiet_step w w.
Proof.
  split; [done|]. split; [done|]. split; [apply Qle_refl|].
  exists []. by rewrite app_nil_r.
Qed.

Lemma quiet_step_trans w1 w2 w3 :
  quiet_step w1 w2 -> quiet_step w2 w3 -> quiet_step w1 w3.
Proof.
  intros (Hs1 & [Hu1 Hp1] & Hc1 & l1 & Hl1 & Hq1)
         (Hs2 & [Hu2 Hp2] & Hc2 & l2 & Hl2 & Hq2).
  split; [intros f; by rewrite Hs2, Hs1|].
  split; [split; congruence|].
  split; [by apply Qle_trans with (clock w2)|].
  exists (l1 ++ l2). split.
  - by rewrite Hl2, Hl1, <- app_assoc.
  - by apply Forall_app.
Qed.

Lemma quiet_ret {A} (a : A) : quiet (ret a).
Proof. intros w. apply quiet_step_refl. Qed.

Lemma quiet_raise {A} (e : exn) : quiet (@raise A e).
Proof. intros w. apply quiet_step_refl. Qed.

Lemma quiet_bind {A B} (m : M A) (k : A -> M B) :
  quiet m -> (forall a, quiet (k a)) -> quiet (bind m k).
Proof.
  intros Hm Hk w. unfold bind. specialize (Hm w).
  destruct (m w) as [[a|e] w1]; cbn in *; [|done].
  eapply quiet_step_trans; [exact Hm|apply Hk].
Qed.

Lemma quiet_emit ev : is_Enter ev = false -> quiet (emit ev).
Proof.
  intros Hev w. split; [by intros []|]. split; [done|].
  split; [apply Qle_refl|].
  exists [ev]. split; [done|]. by constructor.
Qed.

Lemma quiet_request ev : is_Enter ev = false -> quiet (request ev).
Proof.
  intros Hev w. split; [by intros []|]. split; [done|].
  split; [apply Qle_refl|].
  exists [ev]. split; [done|]. by constructor.
Qed.

Lemma quiet_time_sleep d : (0 <= d)%Q -> quiet (time_sleep d).
Proof.
  intros Hd w. split; [by intros []|]. split; [done|]. split; [cbn; lra|].
  exists [Sleep d]. split; [done|]. by constructor.
Qed.

Lemma quiet_execute {A} (r : result A) : quiet (execute r).
Proof.
  destruct r as [a|e]; cbn; [apply quiet_ret|].
  apply quiet_bind; [by apply quiet_emit|intros _; apply quiet_raise].
Qed.

Section CacheFacts.
Variable drive : drive_service.

Lemma quiet_next_chunks t fh : quiet (next_chunks t fh).
Proof.
  revert fh. induction t as [data t IH|data|e]; intros fh; cbn.
  - apply quiet_bind; [by apply quiet_emit|intros _; apply IH].
  - apply quiet_bind; [by apply quiet_emit|intros _; apply quiet_ret].
  - apply quiet_bind; [by apply quiet_emit|intros _].
    apply quiet_bind; [by apply quiet_emit|intros _; apply quiet_raise].
Qed.

Lemma quiet_attempt_download file_id : quiet (attempt_download drive file_id).
Proof.
  apply quiet_bind; [by apply quiet_request|intros k; apply quiet_next_chunks].
Qed.

Lemma quiet_retry_loop range file_id last :
  quiet (retry_loop drive range file_id last).
Proof.
  revert last. induction range as [|a range IH]; intros last w.
  - destruct last; apply quiet_step_refl.
  - cbn [retry_loop]. pose proof (quiet_attempt_download file_id w) as Hq.
    destruct (attempt_download drive file_id w) as [[b|e] w1];
      cbn [fst snd] in *; [done|].
    destruct (is_SSLError e); [|destruct (is_Exception e); [|done]].
    + eapply quiet_step_trans; [exact Hq|].
      apply (quiet_bind (time_sleep 0.8%Q)); [by apply quiet_time_sleep|].
      intros _; apply IH.
    + eapply quiet_step_trans; [exact Hq|].
      apply (quiet_bind (time_sleep 0.5%Q)); [by apply quiet_time_sleep|].
      intros _; apply IH.
Qed.

Lemma quiet_wrapped f arg : quiet (wrapped drive f arg).
Proof.
  destruct f; cbn [wrapped];
    unfold get_folder_name_wrapped, list_folders_wrapped, list_images_wrapped,
      download_image_bytes_wrapped.
  - apply quiet_bind; [by apply quiet_request|intros k].
    apply quiet_bind; [apply quiet_execute|intros [name|]];
      [apply quiet_ret|apply quiet_raise].
  - apply quiet_bind; [by apply quiet_request|intros k].
    apply quiet_bind; [apply quiet_execute|intros r; apply quiet_ret].
  - apply quiet_bind; [by apply quiet_request|intros k].
    apply quiet_bind; [apply quiet_execute|intros r; apply quiet_ret].
  - apply quiet_retry_loop.
Qed.

Lemma cache_data_hit f arg w v :
  lookup_fresh f arg w = Some v ->
  cache_data drive f arg w = (Returned v, w).
Proof. intros H. unfold cache_data. by rewrite H. Qed.

Lemma cache_data_miss f arg w :
  lookup_fresh f arg w = None ->
  cache_data drive f arg w =
  match wrapped drive f arg (with_log (log w ++ [Enter f arg]) w) with
  | (Returned v, w1) =>
      (Returned v, with_store f (<[arg := (v, clock w1)]> (store_of f w1)) w1)
  | (Raised e, w1) => (Raised e, w1)
  end.
Proof.
  intros H. unfold cache_data. rewrite H. unfold bind, emit; cbn.
  by destruct (wrapped drive f arg _) as [[v|e] w1].
Qed.

(** A miss enters the wrapped function once; when the function returns,
    its value is stored at the time it returned. *)
Lemma cache_data_miss_spec f arg w :
  lookup_fresh f arg w = None ->
  let r := cache_data drive f arg w in
  (clock w <= clock r.2)%Q /\
  (exists l, log r.2 = log w ++ Enter f arg :: l /\
             Forall (fun ev => is_Enter ev = false) l) /\
  (forall v, r.1 = Returned v ->
             store_of f r.2 !! arg = Some (v, clock r.2)).
Proof.
  intros H r. subst r. rewrite (cache_data_miss _ _ _ H).
  pose proof (quiet_wrapped f arg (with_log (log w ++ [Enter f arg]) w))
    as (_ & _ & Hc & l & Hl & Hq).
  destruct (wrapped drive f arg _) as [[v|e] w1]; cbn [fst snd] in *.
  - rewrite clock_with_store, log_with_store, store_of_with_store.
    split; [exact Hc|]. split.
    + exists l. split; [|done]. rewrite Hl. cbn. by rewrite <- app_assoc.
    + intros v' [= <-]. apply lookup_insert_eq.
  - split; [exact Hc|]. split; [|done].
    exists l. split; [|done]. rewrite Hl. cbn. by rewrite <- app_assoc.
Qed.

Lemma cache_data_clock f arg w :
  (clock w <= clock (cache_data drive f arg w).2)%Q.
Proof.
  destruct (lookup_fresh f arg w) as [v|] eqn:H.
  - rewrite (cache_data_hit _ _ _ _ H). apply Qle_refl.
  - by destruct (cache_data_miss_spec f arg w H) as (Hc & _).
Qed.

Lemma repeated_calls_nonempty f arg waits w :
  (repeated_calls drive f arg waits w).1 <> [].
Proof.
  destruct waits as [|d waits]; cbn;
    destruct (cache_data drive f arg w) as [r w1]; [done|].
  by destruct (repeated_calls drive f arg waits (advance d w1)).
Qed.

Lemma repeated_calls_cons f arg d waits w :
  repeated_calls drive f arg (d :: waits) w =
  let c := cache_data drive f arg w in
  let rest := repeated_calls drive f arg waits (advance d c.2) in
  ((clock w, c.1) :: rest.1, rest.2).
Proof.
  cbn. destruct (cache_data drive f arg w) as [r w1]; cbn.
  by destruct (repeated_calls drive f arg waits (advance d w1)).
Qed.

Lemma repeated_calls_nil f arg w :
  repeated_calls drive f arg [] w =
  ([(clock w, (cache_data drive f arg w).1)], (cache_data drive f arg w).2).
Proof. cbn. by destruct (cache_data drive f arg w). Qed.

End CacheFacts.

(** C1. When every attempt of a download raises an error,
    [download_image_bytes] makes exactly three attempts (three calls of the
    service, no more, no fewer) and then raises the error of the third
    attempt, the last one it met: so does the undecorated function, and so
    does the decorated one whenever it has no stored value to return, and
    then it stores nothing. *)
Theorem retry_bound (drive : drive_service) (file_id : string) (w : world) :
  (forall k, exists e,
      transfer_error (get_media drive file_id k) = Some e /\
      is_Exception e = true) ->
  let r := download_image_bytes_wrapped drive file_id w in
  let r' := download_image_bytes drive file_id w in
  (attempts_in (events_since w r.2) = 3 /\
   requests r.2 = requests w + 3 /\
   exists e, r.1 = Raised e /\
     transfer_error (get_media drive file_id (requests w + 2)) = Some e) /\
  (lookup_fresh DownloadImageBytes file_id w = None ->
   attempts_in (events_since w r'.2) = 3 /\
   requests r'.2 = requests w + 3 /\
   (exists e, r'.1 = Raised e /\
      transfer_error (get_media drive file_id (requests w + 2)) = Some e) /\
   lookup_fresh DownloadImageBytes file_id r'.2 = None).
Proof.
  intros Hfail r r'. split; [by apply download_all_fail|].
  intros Hlk. subst r'. unfold download_image_bytes.
  rewrite (cache_data_miss _ _ _ _ Hlk). cbn [wrapped].
  set (w0 := with_log (log w ++ [Enter DownloadImageBytes file_id]) w).
  destruct (download_all_fail drive file_id w0 Hfail) as (Hatt & Hreq & e & Hr & He).
  pose proof (quiet_wrapped drive DownloadImageBytes file_id w0) as (Hst & _).
  cbn [wrapped] in Hst.
  destruct (retry_loop_log drive file_id (seq 0 3) None w0) as (l & Hl & _).
  fold (download_image_bytes_wrapped drive file_id w0) in Hl.
  rewrite (events_since_app _ _ _ Hl) in Hatt.
  destruct (download_image_bytes_wrapped drive file_id w0) as [r1 w1];
    cbn [fst snd] in *. subst r1. cbn [fst snd].
  split; [|split; [exact Hreq|split; [by exists e|]]].
  - rewrite (events_since_app w w1 (Enter DownloadImageBytes file_id :: l)).
    + change (Enter DownloadImageBytes file_id :: l)
        with ([Enter DownloadImageBytes file_id] ++ l).
      by rewrite attempts_in_app.
    + rewrite Hl. subst w0. cbn. by rewrite <- app_assoc.
  - unfold lookup_fresh in *. rewrite (Hst DownloadImageBytes).
    subst w0. cbn [store_of with_log store_download_image_bytes] in *.
    by destruct (store_download_image_bytes w !! file_id) as [[v t]|].
Qed.

(** At a concrete input: a service on which every download breaks. *)
Lemma retry_bound_witness :
  attempts_in (events_since initial_world
    (download_image_bytes_wrapped broken_drive "photo-1" initial_world).2) = 3 /\
  (download_image_bytes_wrapped broken_drive "photo-1" initial_world).1
    = Raised an_SSLError.
Proof.
  destruct (retry_bound broken_drive "photo-1" initial_world)
    as [(H1 & _ & e & H2 & H3) _].
  - intros k. cbn. destruct (Nat.even k); eexists; split; reflexivity.
  - split; [exact H1|]. rewrite H2. cbn in H3. congruence.
Defined.

Lemma last_time_cons {A} (x : Q * A) (rs : list (Q * A)) :
  rs <> [] -> last_time (x :: rs) = last_time rs.
Proof. destruct rs; [done|reflexivity]. Qed.

Lemma runs_in_app f arg l1 l2 :
  runs_in f arg (l1 ++ l2) = runs_in f arg l1 + runs_in f arg l2.
Proof. unfold runs_in. by rewrite List.filter_app, List.length_app. Qed.

Lemma runs_in_quiet f arg l :
  Forall (fun ev => is_Enter ev = false) l -> runs_in f arg l = 0.
Proof.
  induction 1 as [|ev l Hev _ IH]; [done|].
  unfold runs_in in *. cbn. by destruct ev.
Qed.

Lemma runs_in_Enter f arg l :
  runs_in f arg (Enter f arg :: l) = S (runs_in f arg l).
Proof.
  unfold runs_in. cbn. rewrite String.eqb_refl. by destruct f.
Qed.

Lemma fresh_intro f stored_at now :
  (forall t, ttl f = Some t -> (now < stored_at + t)%Q) ->
  fresh f stored_at now = true.
Proof.
  intros H. unfold fresh. destruct (ttl f) as [t|]; [|done].
  destruct (Qlt_le_dec now (stored_at + t)) as [_|Hle]; [done|].
  specialize (H t eq_refl). lra.
Qed.

Section RepeatedCalls.
Variable drive : drive_service.
Variables (f : cached_fn) (arg : string).

Lemma last_time_ge waits : forall w,
  Forall (fun d => (0 <= d)%Q) waits ->
  (clock w <= last_time (repeated_calls drive f arg waits w).1)%Q.
Proof.
  induction waits as [|d waits IH]; intros w Hw.
  - rewrite repeated_calls_nil. cbn. apply Qle_refl.
  - rewrite repeated_calls_cons. cbn [fst snd].
    rewrite last_time_cons by apply repeated_calls_nonempty.
    inversion Hw as [|? ? Hd Hw']; subst.
    specialize (IH (advance d (cache_data drive f arg w).2) Hw').
    pose proof (cache_data_clock drive f arg w). cbn in IH. lra.
Qed.

(** Once a value is stored, every call made before the entry expires
    returns it and touches neither the log nor the service. *)
Lemma repeated_calls_hits v stored_at waits : forall w,
  Forall (fun d => (0 <= d)%Q) waits ->
  store_of f w !! arg = Some (v, stored_at) ->
  (forall t, ttl f = Some t ->
     (last_time (repeated_calls drive f arg waits w).1 < stored_at + t)%Q) ->
  Forall (fun r => r.2 = Returned v) (repeated_calls drive f arg waits w).1 /\
  log (repeated_calls drive f arg waits w).2 = log w /\
  requests (repeated_calls drive f arg waits w).2 = requests w.
Proof.
  induction waits as [|d waits IH]; intros w Hw Hst Hwin.
  - assert (Hhit : lookup_fresh f arg w = Some v).
    { unfold lookup_fresh. rewrite Hst, fresh_intro; [done|].
      intros t Ht. specialize (Hwin t Ht).
      rewrite repeated_calls_nil in Hwin. exact Hwin. }
    rewrite repeated_calls_nil, (cache_data_hit _ _ _ _ _ Hhit). cbn.
    repeat split; repeat constructor.
  - pose proof (last_time_ge (d :: waits) w Hw) as Hge.
    assert (Hhit : lookup_fresh f arg w = Some v).
    { unfold lookup_fresh. rewrite Hst, fresh_intro; [done|].
      intros t Ht. specialize (Hwin t Ht). lra. }
    rewrite repeated_calls_cons in Hwin |- *.
    rewrite (cache_data_hit _ _ _ _ _ Hhit) in Hwin |- *. cbn [fst snd] in *.
    rewrite last_time_cons in Hwin by apply repeated_calls_nonempty.
    inversion Hw as [|? ? Hd Hw']; subst.
    destruct (IH (advance d w) Hw') as (H1 & H2 & H3); [|exact Hwin|].
    { by rewrite store_of_advance. }
    split; [by constructor|]. by split.
Qed.

(** Calls spread over less than the time-to-live, counted from [c0], that
    all return: the wrapped function runs at most once. *)
Lemma repeated_calls_runs c0 waits : forall w,
  Forall (fun d => (0 <= d)%Q) waits ->
  (c0 <= clock w)%Q ->
  (forall t, ttl f = Some t ->
     (last_time (repeated_calls drive f arg waits w).1 - c0 < t)%Q) ->
  Forall (fun r => returned r.2 = true) (repeated_calls drive f arg waits w).1 ->
  exists l, log (repeated_calls drive f arg waits w).2 = log w ++ l /\
            runs_in f arg l <= 1.
Proof.
  induction waits as [|d waits IH]; intros w Hw Hc0 Hwin Hret.
  - rewrite repeated_calls_nil. cbn [fst snd].
    destruct (lookup_fresh f arg w) as [v|] eqn:Hlk.
    + rewrite (cache_data_hit _ _ _ _ _ Hlk). exists [].
      split; [by rewrite app_nil_r|]. cbn. lia.
    + destruct (cache_data_miss_spec drive f arg w Hlk) as (_ & (l & Hl & Hq) & _).
      exists (Enter f arg :: l). split; [done|].
      rewrite runs_in_Enter, runs_in_quiet by done. lia.
  - rewrite repeated_calls_cons in Hwin, Hret |- *. cbn [fst snd] in *.
    rewrite last_time_cons in Hwin by apply repeated_calls_nonempty.
    inversion Hw as [|? ? Hd Hw']; subst.
    inversion Hret as [|? ? Hr1 Hret']; subst. cbn [fst snd] in Hr1.
    destruct (lookup_fresh f arg w) as [v|] eqn:Hlk.
    + rewrite (cache_data_hit _ _ _ _ _ Hlk) in Hwin, Hret' |- *.
      cbn [fst snd] in *.
      destruct (IH (advance d w) Hw') as (l & Hl & Hruns);
        [cbn; lra|exact Hwin|exact Hret'|].
      exists l. by split.
    + destruct (cache_data_miss_spec drive f arg w Hlk)
        as (Hclk & (l & Hl & Hq) & Hstored).
      destruct (cache_data drive f arg w) as [[v|e] w1] eqn:Hcd;
        cbn [fst snd] in *; [|done].
      specialize (Hstored v eq_refl).
      destruct (repeated_calls_hits v (clock w1) waits (advance d w1) Hw')
        as (_ & Hlog & _).
      { by rewrite store_of_advance. }
      { intros t Ht. specialize (Hwin t Ht). lra. }
      exists (Enter f arg :: l). split.
      * rewrite Hlog. exact Hl.
      * rewrite runs_in_Enter, runs_in_quiet by done. lia.
Qed.

End RepeatedCalls.

(** C2, as amended.  Calls [f(arg)] spread over less than the time-to-live
    of [f] (300 seconds for the folder-name and list functions; no limit for
    the download, which has no time-to-live) and that all return run the
    wrapped function at most once; when the first call finds no fresh entry
    and returns [v], every call of the sequence returns [v] and the later
    ones add nothing to the log and send nothing to the service.
    [st.cache_data.clear()] leaves no entry at all. *)
Theorem cache_hit_within_ttl (drive : drive_service) (f : cached_fn)
  (arg : string) (waits : list Q) (w : world) :
  Forall (fun d => (0 <= d)%Q) waits ->
  let r := repeated_calls drive f arg waits w in
  (forall t, ttl f = Some t -> (last_time r.1 - clock w < t)%Q) ->
  Forall (fun c => returned c.2 = true) r.1 ->
  runs_in f arg (events_since w r.2) <= 1 /\
  (forall v, lookup_fresh f arg w = None ->
     (cache_data drive f arg w).1 = Returned v ->
     Forall (fun c => c.2 = Returned v) r.1 /\
     events_since (cache_data drive f arg w).2 r.2 = [] /\
     requests r.2 = requests (cache_data drive f arg w).2) /\
  (ttl GetFolderName = Some 300%Q /\ ttl ListFolders = Some 300%Q /\
   ttl ListImages = Some 300%Q /\ ttl DownloadImageBytes = None) /\
  (forall g a, lookup_fresh g a (cache_data_clear w).2 = None).
Proof.
  intros Hw r Hwin Hret. subst r. split; [|split; [|split]].
  - destruct (repeated_calls_runs drive f arg (clock w) waits w Hw)
      as (l & Hl & Hruns); [apply Qle_refl|exact Hwin|exact Hret|].
    by rewrite (events_since_app _ _ _ Hl).
  - intros v Hlk Hv.
    destruct (cache_data_miss_spec drive f arg w Hlk) as (Hclk & _ & Hstored).
    specialize (Hstored v Hv).
    destruct waits as [|d waits].
    + rewrite repeated_calls_nil, Hv. cbn [fst snd].
      split; [by repeat constructor|]. split; [|done].
      apply events_since_app. by rewrite app_nil_r.
    + rewrite repeated_calls_cons in Hwin |- *. cbn [fst snd] in *.
      rewrite last_time_cons in Hwin by apply repeated_calls_nonempty.
      inversion Hw as [|? ? Hd Hw']; subst.
      set (w1 := (cache_data drive f arg w).2) in *.
      destruct (repeated_calls_hits drive f arg v (clock w1) waits (advance d w1) Hw')
        as (Hall & Hlog & Hreq).
      { by rewrite store_of_advance. }
      { intros t Ht. specialize (Hwin t Ht). lra. }
      split; [constructor; [exact Hv|exact Hall]|]. split; [|exact Hreq].
      apply events_since_app. rewrite Hlog. cbn. by rewrite app_nil_r.
  - done.
  - intros g a. unfold lookup_fresh. destruct g; cbn; by rewrite lookup_empty.
Qed.

(** At a concrete input: three listings of the sessions of a studio, 100
    seconds apart. *)
Lemma cache_hit_within_ttl_witness :
  runs_in ListFolders "studio-a"
    (events_since initial_world
       (repeated_calls demo_drive ListFolders "studio-a" [100%Q; 100%Q]
          initial_world).2) <= 1.
Proof.
  refine (proj1 (cache_hit_within_ttl demo_drive ListFolders "studio-a"
                   [100%Q; 100%Q] initial_world _ _ _)).
  - repeat constructor; discriminate.
  - intros t [= <-]. reflexivity.
  - repeat constructor.
Defined.

(** C2 as it is stated fails where the wrapped function raises: nothing is
    stored, so the next call runs it again.  Two calls for a file whose
    download always breaks, one second apart, run the wrapped function twice
    and make six download attempts. *)
Lemma cache_hit_counterexample :
  let r := repeated_calls broken_drive DownloadImageBytes "photo-1" [1%Q]
             initial_world in
  (forall t, ttl DownloadImageBytes = Some t ->
     (last_time r.1 - clock initial_world < t)%Q) /\
  runs_in DownloadImageBytes "photo-1" (events_since initial_world r.2) = 2 /\
  attempts_in (events_since initial_world r.2) = 6 /\
  ~ runs_in DownloadImageBytes "photo-1" (events_since initial_world r.2) <= 1.
Proof.
  cbv zeta. split; [intros t [=]|].
  assert (H : runs_in DownloadImageBytes "photo-1"
                (events_since initial_world
                   (repeated_calls broken_drive DownloadImageBytes "photo-1"
                      [1%Q] initial_world).2) = 2) by (vm_compute; reflexivity).
  split; [exact H|]. split; [vm_compute; reflexivity|]. rewrite H. lia.
Qed.

(** ** The gallery renderer *)

Section RendererFacts.
Variable drive : drive_service.
Variable pil : imaging.
Variable st : streamlit.

(** A cached call writes nothing to the page. *)
Lemma cache_data_page f arg w :
  container (cache_data drive f arg w).2 = container w /\
  page (cache_data drive f arg w).2 = page w.
Proof.
  destruct (lookup_fresh f arg w) as [v|] eqn:Hlk.
  - by rewrite (cache_data_hit _ _ _ _ _ Hlk).
  - rewrite (cache_data_miss _ _ _ _ Hlk).
    pose proof (quiet_wrapped drive f arg (with_log (log w ++ [Enter f arg]) w))
      as (_ & [Hu Hp] & _).
    destruct (wrapped drive f arg _) as [[v|e] w1]; cbn [fst snd] in *; [|done].
    by destruct f.
Qed.

Lemma load_image_page img max_size w :
  container (load_image drive pil img max_size w).2 = container w /\
  page (load_image drive pil img max_size w).2 = page w.
Proof.
  unfold load_image, bind, download_image_bytes.
  pose proof (cache_data_page DownloadImageBytes (image_id img) w) as [Hu Hp].
  destruct (cache_data drive DownloadImageBytes (image_id img) w) as [[b|e] w1];
    cbn [fst snd] in *; [|done].
  destruct (Image_open pil b) as [p|e]; cbn; [|done].
  destruct (Image_thumbnail pil p max_size) as [p'|e]; cbn; done.
Qed.

(** [st.image] writes the picture, or raises and writes nothing. *)
Lemma st_image_spec p caption w :
  let r := st_image st p caption w in
  container r.2 = container w /\
  match st_image_raises st p with
  | None => r.1 = Returned tt /\
            page r.2 = page w ++ [(container w, StImage p caption)]
  | Some e => r = (Raised e, w)
  end.
Proof. cbv zeta. unfold st_image. by destruct (st_image_raises st p). Qed.

(** The [try] body, seen as giving the picture it has displayed. *)
Lemma try_body_show_image img max_size w :
  (pil_img <- load_image drive pil img max_size ;;
   st_image st pil_img (image_name img)) w
  = match show_image drive pil st img max_size w with
    | (Returned _, w') => (Returned tt, w')
    | (Raised e, w') => (Raised e, w')
    end.
Proof.
  unfold show_image, bind.
  destruct (load_image drive pil img max_size w) as [[p|e] w1]; [|done].
  unfold st_image. by destruct (st_image_raises st p).
Qed.

Lemma show_image_page img max_size w :
  let r := show_image drive pil st img max_size w in
  container r.2 = container w /\
  match r.1 with
  | Returned p =>
      page r.2 = page w ++ [(container w, StImage p (image_name img))]
  | Raised _ => page r.2 = page w
  end.
Proof.
  cbv zeta. unfold show_image, bind.
  pose proof (load_image_page img max_size w) as [Hu Hp].
  destruct (load_image drive pil img max_size w) as [[p|e] w1];
    cbn [fst snd] in *; [|done].
  unfold st_image. destruct (st_image_raises st p); cbn; [done|].
  by rewrite Hu, Hp.
Qed.

(** What the [try] statement does, from what its body gave. *)
Lemma render_image_spec img max_size w :
  let r := show_image drive pil st img max_size w in
  let r' := render_image drive pil st img max_size w in
  container r'.2 = container w /\
  match cell_of img r.1 with
  | Some c =>
      r'.1 = Returned tt /\
      page r'.2 = page w ++ map (pair (container w)) (cell_elements c)
  | None => page r'.2 = page w /\ exists e, r'.1 = Raised e
  end.
Proof.
  cbv zeta. unfold render_image, try_except_Exception.
  rewrite try_body_show_image.
  pose proof (show_image_page img max_size w) as [Hu Hp]. cbv zeta in Hp.
  destruct (show_image drive pil st img max_size w) as [[p|e] w1];
    cbn [fst snd] in *.
  - by rewrite Hp.
  - cbn [cell_of]. destruct (is_Exception e); cbn.
    + rewrite Hu, Hp, <- app_assoc. done.
    + split; [done|]. split; [done|]. by exists e.
Qed.

Lemma with_container_render_image c img max_size w :
  let r := show_image drive pil st img max_size (with_page c (page w) w) in
  let r' := with_container c (render_image drive pil st img max_size) w in
  container r'.2 = container w /\
  match cell_of img r.1 with
  | Some cl =>
      r'.1 = Returned tt /\
      page r'.2 = page w ++ map (pair c) (cell_elements cl)
  | None => page r'.2 = page w /\ exists e, r'.1 = Raised e
  end.
Proof.
  cbv zeta. unfold with_container.
  pose proof (render_image_spec img max_size (with_page c (page w) w)) as [_ H].
  cbv zeta in H.
  destruct (render_image drive pil st img max_size (with_page c (page w) w))
    as [r' w'] eqn:Hr. cbn [fst snd] in *.
  split; [done|].
  destruct (cell_of img _); exact H.
Qed.

Lemma columns_lookup cols i :
  (0 < cols)%Z ->
  map Column (seq 0 (Z.to_nat cols)) !! Z.to_nat (Z.of_nat i mod cols)
  = Some (Column (Z.to_nat (Z.of_nat i mod cols))).
Proof.
  intros Hcols. rewrite list_lookup_fmap, lookup_seq_lt; [done|].
  pose proof (Z.mod_pos_bound (Z.of_nat i) cols Hcols). lia.
Qed.

Lemma render_loop_spec cols max_size :
  (0 < cols)%Z ->
  forall images i w,
    let columns := map Column (seq 0 (Z.to_nat cols)) in
    let outs := try_outcomes drive pil st columns cols max_size i images w in
    let r := render_loop drive pil st columns cols max_size i images w in
    container r.2 = container w /\
    page r.2 = page w ++ grid_from cols i (cells_of images outs) /\
    (Forall handled outs ->
     r.1 = Returned tt /\ List.length outs = List.length images).
Proof.
  intros Hcols images. induction images as [|img images IH]; intros i w; cbv zeta.
  - cbn. by rewrite app_nil_r.
  - cbn [render_loop try_outcomes]. rewrite columns_lookup by done.
    set (c := Column _).
    pose proof (with_container_render_image c img max_size w) as [Hu Hcell].
    cbv zeta in Hcell. unfold bind.
    set (r0 := (show_image drive pil st img max_size (with_page c (page w) w)).1) in *.
    destruct (with_container c (render_image drive pil st img max_size) w)
      as [r' w'] eqn:Hr. cbn [fst snd] in *.
    destruct (cell_of img r0) as [cl|] eqn:Hcl.
    + destruct Hcell as [-> Hp].
      destruct (IH (S i) w') as (IHu & IHp & IHr). cbv zeta in *.
      split; [congruence|]. split.
      * rewrite IHp, Hp. cbn [cells_of grid_from]. rewrite Hcl.
        cbn [grid_from]. by rewrite <- !app_assoc.
      * intros Hall. inversion Hall as [|? ? _ Hall']; subst.
        destruct (IHr Hall') as [-> Hlen]. split; [done|]. cbn. by rewrite Hlen.
    + destruct Hcell as [Hp [e ->]]. cbn [fst snd cells_of]. rewrite Hcl.
      split; [done|]. split; [cbn; by rewrite app_nil_r|].
      intros Hall. inversion Hall as [|? ? Hh _]; subst. exfalso.
      destruct r0 as [p|e0]; cbn in Hcl, Hh; [done|]. by rewrite Hh in Hcl.
Qed.

Lemma render_gallery_spec images cols max_size w :
  (0 < cols)%Z ->
  let columns := map Column (seq 0 (Z.to_nat cols)) in
  let outs := try_outcomes drive pil st columns cols max_size 0 images w in
  let r := render_gallery drive pil st images cols max_size w in
  container r.2 = container w /\
  page r.2 = page w ++ grid_from cols 0 (cells_of images outs) /\
  (Forall handled outs ->
   r.1 = Returned tt /\ List.length outs = List.length images).
Proof.
  intros Hcols. cbv zeta. unfold render_gallery, st_columns, bind.
  destruct (Z.leb_spec cols 0) as [?|_]; [lia|]. cbn [ret].
  apply render_loop_spec, Hcols.
Qed.

End RendererFacts.

Lemma grid_from_app cols i cs1 cs2 :
  grid_from cols i (cs1 ++ cs2) =
  grid_from cols i cs1 ++ grid_from cols (i + List.length cs1) cs2.
Proof.
  revert i. induction cs1 as [|c cs1 IH]; intros i; cbn.
  - by rewrite Nat.add_0_r.
  - rewrite IH, <- app_assoc. by rewrite Nat.add_succ_r.
Qed.

(** The elements of the cell of index [i] stand between those of the cells
    before it and those of the cells after it, in the column [i mod cols]. *)
Lemma grid_from_split cols (cs : list cell) i c :
  cs !! i = Some c ->
  grid_from cols 0 cs =
  grid_from cols 0 (take i cs)
  ++ map (pair (Column (Z.to_nat (Z.of_nat i mod cols)))) (cell_elements c)
  ++ grid_from cols (S i) (drop (S i) cs).
Proof.
  intros Hi. rewrite <- (take_drop_middle cs i c Hi) at 1.
  rewrite grid_from_app. cbn [grid_from].
  assert (Hlen : List.length (take i cs) = i).
  { rewrite length_take. apply lookup_lt_Some in Hi. lia. }
  by rewrite Hlen.
Qed.

Lemma cells_of_lookup images outs i c :
  cells_of images outs !! i = Some c ->
  exists img o, images !! i = Some img /\ outs !! i = Some o /\
                cell_of img o = Some c.
Proof.
  revert outs i. induction images as [|img images IH]; intros [|o outs] i; cbn;
    try done.
  destruct (cell_of img o) as [c'|] eqn:Hc; [|done].
  destruct i as [|i]; cbn.
  - intros [= <-]. by exists img, o.
  - apply IH.
Qed.

Lemma cells_of_length images outs :
  Forall handled outs -> List.length outs = List.length images ->
  List.length (cells_of images outs) = List.length images.
Proof.
  revert outs. induction images as [|img images IH]; intros [|o outs]; cbn;
    try done.
  intros Hall [= Hlen]. inversion Hall as [|? ? Hh Hall']; subst.
  destruct o as [p|e]; cbn in *; [by rewrite IH|].
  rewrite Hh. cbn. by rewrite IH.
Qed.

(** C9. With [cols] columns, the cell of the image of index [i] (its
    picture, or its error) is written to the column [i mod cols], after the
    cells of the images before it and before the cells of the images after
    it; the first [cols] images take the columns 0 to [cols - 1] in order
    and the column of an image is again that of the image [cols] places
    before it.  The cell of an image is what its [try] statement made of
    it: the picture when fetching, decoding and displaying returned, the
    error when one of them raised.  Every image has its cell when no raise
    escapes. *)
Theorem round_robin_columns (drive : drive_service) (pil : imaging)
  (st : streamlit) (images : list ImageDescriptor) (cols : Z) (max_size : Z * Z) (w : world) :
  (0 < cols)%Z ->
  let outs := try_outcomes drive pil st (map Column (seq 0 (Z.to_nat cols)))
                cols max_size 0 images w in
  let cells := cells_of images outs in
  let r := render_gallery drive pil st images cols max_size w in
  (forall i c, cells !! i = Some c ->
     (exists img o, images !! i = Some img /\ outs !! i = Some o /\
                    cell_of img o = Some c) /\
     page r.2 =
       page w ++ grid_from cols 0 (take i cells)
       ++ map (pair (Column (Z.to_nat (Z.of_nat i mod cols)))) (cell_elements c)
       ++ grid_from cols (S i) (drop (S i) cells)) /\
  (Forall handled outs -> List.length cells = List.length images) /\
  (forall i, (Z.of_nat i < cols)%Z -> Z.to_nat (Z.of_nat i mod cols) = i) /\
  (forall i, Z.to_nat (Z.of_nat (i + Z.to_nat cols) mod cols)
             = Z.to_nat (Z.of_nat i mod cols)).
Proof.
  intros Hcols outs cells r.
  destruct (render_gallery_spec drive pil st images cols max_size w Hcols)
    as (_ & Hp & Hall). cbv zeta in Hp, Hall.
  split; [|split; [|split]].
  - intros i c Hi. split; [by apply cells_of_lookup|].
    subst r. rewrite Hp. f_equal. by apply grid_from_split.
  - intros Hh. apply cells_of_length; [done|]. by apply Hall.
  - intros i Hi. rewrite Z.mod_small by lia. lia.
  - intros i. f_equal. rewrite Nat2Z.inj_add, Z2Nat.id by lia.
    rewrite <- (Z.mul_1_l cols) at 1. by rewrite Z.mod_add by lia.
Qed.

(** At a concrete input: three images in two columns; the third goes
    below the first. *)
Lemma round_robin_columns_witness :
  page (render_gallery demo_drive demo_pil demo_st demo_images 2 default_max_size
          initial_world).2 =
  [ (Column 0, StImage {| pil_width := 2000; pil_height := 1500;
                          pil_source := [Byte.xff; Byte.xd8] |} "IMG_0001.jpg");
    (Column 1, StError "Failed to load: IMG_0002.jpg");
    (Column 1, StCaption "EOF occurred in violation of protocol");
    (Column 0, StImage {| pil_width := 2000; pil_height := 1500;
                          pil_source := [Byte.xff; Byte.xd8] |} "IMG_0003.jpg") ].
Proof.
  destruct (round_robin_columns demo_drive demo_pil demo_st demo_images 2
              default_max_size initial_world eq_refl) as (H & _).
  destruct (H 2
    (ImageCell {| pil_width := 2000; pil_height := 1500;
                  pil_source := [Byte.xff; Byte.xd8] |} "IMG_0003.jpg")
    eq_refl) as [_ Hp].
  rewrite Hp. reflexivity.
Defined.

Lemma cells_of_returned pils images rest_images rest_outs :
  List.length pils = List.length images ->
  cells_of (images ++ rest_images) (map Returned pils ++ rest_outs) =
  image_cells pils images ++ cells_of rest_images rest_outs.
Proof.
  revert images. induction pils as [|p pils IH]; intros [|img images]; cbn;
    try done.
  intros [= Hlen]. by rewrite IH.
Qed.

Lemma cells_of_all_returned pils images :
  List.length pils = List.length images ->
  cells_of images (map Returned pils) = image_cells pils images.
Proof.
  intros Hlen.
  rewrite <- (app_nil_r images), <- (app_nil_r (map Returned pils)).
  rewrite cells_of_returned by done. cbn. by rewrite !app_nil_r.
Qed.

Lemma image_cells_length pils images :
  List.length pils = List.length images ->
  List.length (image_cells pils images) = List.length images.
Proof. intros H. unfold image_cells. rewrite length_zip_with. lia. Qed.

Lemma Forall_handled_returned pils : Forall handled (map Returned pils).
Proof. induction pils; by constructor. Qed.

(** C5, as amended.  On a page where the [try] body (fetch, decode,
    display) raises an error for exactly one image [bad] and returns for all
    the others, [render_gallery] returns (nothing escapes it) and the page
    shows the picture of every other image, [N - 1] pictures, and one error
    cell with the name of [bad] and the message of the error, each in the
    place of its image. *)
Theorem failure_isolation (drive : drive_service) (pil : imaging)
  (st : streamlit) (pre post : list ImageDescriptor) (bad : ImageDescriptor)
  (pils_pre pils_post : list pil_image) (e : exn)
  (cols : Z) (max_size : Z * Z) (w : world) :
  (0 < cols)%Z ->
  try_outcomes drive pil st (map Column (seq 0 (Z.to_nat cols))) cols max_size 0
    (pre ++ bad :: post) w
  = map Returned pils_pre ++ Raised e :: map Returned pils_post ->
  List.length pils_pre = List.length pre ->
  is_Exception e = true ->
  let r := render_gallery drive pil st (pre ++ bad :: post) cols max_size w in
  let pictures_pre := image_cells pils_pre pre in
  let pictures_post := image_cells pils_post post in
  r.1 = Returned tt /\
  page r.2 =
    page w ++ grid_from cols 0
      (pictures_pre ++ ErrorCell (image_name bad) (exn_str e) :: pictures_post) /\
  List.length (pictures_pre ++ pictures_post)
  = List.length (pre ++ bad :: post) - 1 /\
  Forall (fun c => is_image_cell c = true) (pictures_pre ++ pictures_post).
Proof.
  intros Hcols Houts Hlen He r pictures_pre pictures_post.
  destruct (render_gallery_spec drive pil st (pre ++ bad :: post) cols max_size w Hcols)
    as (_ & Hp & Hall). cbv zeta in Hp, Hall. rewrite Houts in Hp, Hall.
  destruct Hall as [Hr Hlens].
  { apply Forall_app. split; [apply Forall_handled_returned|].
    constructor; [exact He|apply Forall_handled_returned]. }
  assert (Hpost : List.length pils_post = List.length post).
  { rewrite !List.length_app in Hlens. cbn in Hlens.
    rewrite !List.length_map in Hlens. lia. }
  split; [exact Hr|]. split; [|split].
  - subst r. rewrite Hp. f_equal.
    rewrite cells_of_returned by done. cbn [cells_of cell_of]. rewrite He.
    by rewrite cells_of_all_returned.
  - subst pictures_pre pictures_post.
    rewrite !List.length_app, !image_cells_length by done. cbn. lia.
  - apply Forall_app. unfold pictures_pre, pictures_post, image_cells.
    split; apply Forall_forall; intros c Hc; apply elem_of_lookup_zip_with in Hc;
      destruct Hc as (? & ? & ? & -> & _); done.
Qed.

(** At a concrete input: a page of three images, the download of the second
    breaking on every attempt. *)
Lemma failure_isolation_witness :
  (render_gallery demo_drive demo_pil demo_st demo_images 4 default_max_size
     initial_world).1 = Returned tt /\
  page (render_gallery demo_drive demo_pil demo_st demo_images 4 default_max_size
          initial_world).2 =
  [ (Column 0, StImage {| pil_width := 2000; pil_height := 1500;
                          pil_source := [Byte.xff; Byte.xd8] |} "IMG_0001.jpg");
    (Column 1, StError "Failed to load: IMG_0002.jpg");
    (Column 1, StCaption "EOF occurred in violation of protocol");
    (Column 2, StImage {| pil_width := 2000; pil_height := 1500;
                          pil_source := [Byte.xff; Byte.xd8] |} "IMG_0003.jpg") ].
Proof.
  pose (p := {| pil_width := 2000; pil_height := 1500;
                pil_source := [Byte.xff; Byte.xd8] |}).
  destruct (failure_isolation demo_drive demo_pil demo_st
              [ {| image_id := "photo-1"; image_name := "IMG_0001.jpg";
                   image_mimeType := "image/jpeg" |} ]
              [ {| image_id := "photo-3"; image_name := "IMG_0003.jpg";
                   image_mimeType := "image/jpeg" |} ]
              {| image_id := "photo-2"; image_name := "IMG_0002.jpg";
                 image_mimeType := "image/jpeg" |}
              [p] [p] an_SSLError 4 default_max_size initial_world)
    as (Hr & Hp & _); [reflexivity..|].
  split; [exact Hr|exact Hp].
Defined.

(** C5 as it is stated fails when [st.image] raises for an image that was
    fetched and decoded.  On the page of the three images of [scan_drive],
    fetching raises for the second one alone and decoding for none; yet the
    page shows one picture where the claim has two, and two error cells:
    the scan is decoded but cannot be displayed. *)
Lemma failure_isolation_counterexample :
  map returned
    (load_outcomes scan_drive demo_pil no_float_st [Column 0; Column 1; Column 2; Column 3]
       4 default_max_size 0 scan_images initial_world)
  = [true; false; true] /\
  (render_gallery scan_drive demo_pil no_float_st scan_images 4 default_max_size
     initial_world).1 = Returned tt /\
  page (render_gallery scan_drive demo_pil no_float_st scan_images 4
          default_max_size initial_world).2 =
  [ (Column 0, StImage {| pil_width := 2000; pil_height := 1500;
                          pil_source := [Byte.xff; Byte.xd8] |} "IMG_0001.jpg");
    (Column 1, StError "Failed to load: IMG_0002.jpg");
    (Column 1, StCaption "EOF occurred in violation of protocol");
    (Column 2, StError "Failed to load: scan-1.tif");
    (Column 2, StCaption "cannot write mode F as JPEG") ].
Proof. repeat split; reflexivity. Qed.

(** ** Pagination *)

Lemma total_pages_ceil total page_size :
  (1 <= total)%Z -> (1 <= page_size)%Z ->
  let n := total_pages total page_size in
  ((n - 1) * page_size < total <= n * page_size)%Z.
Proof.
  intros Ht Hp. cbv zeta. unfold total_pages.
  pose proof (Z.div_mod (total + page_size - 1) page_size ltac:(lia)) as Hdm.
  pose proof (Z.mod_pos_bound (total + page_size - 1) page_size ltac:(lia)) as Hm.
  set (q := ((total + page_size - 1) / page_size)%Z) in *.
  assert (1 <= q)%Z by nia.
  rewrite Z.max_r by lia. nia.
Qed.

Lemma total_pages_pos total page_size : (1 <= total_pages total page_size)%Z.
Proof. unfold total_pages. lia. Qed.

Lemma widget_value_in_bounds label lo hi dflt session :
  in_bounds session -> (lo <= dflt <= hi)%Z ->
  (lo <= widget_value (label, lo, hi, dflt) session <= hi)%Z.
Proof.
  intros Hb Hd. unfold widget_value.
  destruct (_ !! _) as [v|] eqn:Hv; cbn; [|lia].
  by apply (Hb label lo hi dflt).
Qed.

Lemma py_slice_in_range {A} (l : list A) (start stop : Z) :
  (0 <= start <= stop)%Z -> (stop <= Z.of_nat (List.length l))%Z ->
  py_slice l start stop = take (Z.to_nat (stop - start)) (drop (Z.to_nat start) l).
Proof.
  intros H1 H2. unfold py_slice.
  destruct (Z.ltb_spec stop 0), (Z.ltb_spec start 0); try lia.
  by rewrite !Z.min_l by lia.
Qed.

(** C3. For a non-empty image list (the script stops before the pagination
    when there is no image), the page size [page_size] and the page [page]
    read from the widgets, the script computes
    [start = (page - 1) * page_size] and [end = min(start + page_size, total)],
    the page shown is the half-open slice of the images from [start] to
    [end], and the number of pages is the ceiling of [total / page_size]
    (the least [n] with [total <= n * page_size]).  For 95 images, a page
    size of 30 and page 2 this gives the slice from 30 to 60 and 4 pages. *)
Theorem pagination_slice :
  (forall (images : list ImageDescriptor) (session : gmap widget_id Z),
     images <> [] -> in_bounds session ->
     let total := Z.of_nat (List.length images) in
     let p := paginate total session in
     start p = ((page_number p - 1) * page_size p)%Z /\
     end_ p = Z.min (start p + page_size p) total /\
     ((pages p - 1) * page_size p < total <= pages p * page_size p)%Z /\
     (1 <= page_number p <= pages p)%Z /\
     (0 <= start p < end_ p)%Z /\ (end_ p <= total)%Z /\
     images_page images session
     = take (Z.to_nat (end_ p - start p)) (drop (Z.to_nat (start p)) images)) /\
  (forall (images : list ImageDescriptor),
     List.length images = 95 ->
     let session : gmap widget_id Z :=
       <[page_id 4 := 2%Z]> (<[page_size_id := 30%Z]> ∅) in
     let p := paginate 95 session in
     page_size p = 30%Z /\ page_number p = 2%Z /\
     start p = 30%Z /\ end_ p = 60%Z /\ pages p = 4%Z /\
     images_page images session = take 30 (drop 30 images)).
Proof.
  split.
  - intros images session Hne Hb total p.
    assert (Htot : (1 <= total)%Z) by (subst total; destruct images; [done|cbn; lia]).
    pose proof (widget_value_in_bounds "📄 Images per page" 10 100 30 session Hb
                  ltac:(lia)) as Hps.
    set (ps := widget_value ("📄 Images per page"%string, 10, 100, 30)%Z session) in *.
    pose proof (total_pages_ceil total ps Htot ltac:(lia)) as Hceil.
    pose proof (total_pages_pos total ps) as Hpos. cbv zeta in Hceil.
    pose proof (widget_value_in_bounds "📌 Page" 1 (total_pages total ps) 1 session
                  Hb ltac:(lia)) as Hpg.
    set (pg := widget_value ("📌 Page"%string, 1, total_pages total ps, 1)%Z session) in *.
    assert (Hp : p = {| cols := slider "🧱 Gallery Columns" 2 6 4 session;
                        page_size := ps; pages := total_pages total ps;
                        page_number := pg; start := (pg - 1) * ps;
                        end_ := Z.min ((pg - 1) * ps + ps) total |}) by reflexivity.
    assert (Hstart : (0 <= (pg - 1) * ps < total)%Z) by nia.
    unfold images_page. fold total. fold p. rewrite Hp. cbn [start end_ page_size pages page_number].
    repeat split; try lia.
    apply py_slice_in_range; subst total; lia.
  - intros images Hlen. cbv zeta.
    assert (Hp : paginate 95 (<[page_id 4 := 2%Z]> (<[page_size_id := 30%Z]> ∅))
                 = {| cols := 4; page_size := 30; pages := 4; page_number := 2;
                      start := 30; end_ := 60 |}) by (vm_compute; reflexivity).
    rewrite Hp. cbn [start end_ page_size pages page_number].
    repeat split. unfold images_page. rewrite Hlen.
    change (Z.of_nat 95) with 95%Z. rewrite Hp. cbn [start end_].
    rewrite py_slice_in_range by lia. reflexivity.
Qed.

(** At a concrete input: three images and an untouched session. *)
Lemma pagination_slice_witness :
  images_page demo_images ∅ = demo_images /\
  pages (paginate 3 ∅) = 1%Z.
Proof.
  destruct pagination_slice as [H _].
  destruct (H demo_images ∅) as (_ & _ & _ & _ & _ & _ & Hs).
  - discriminate.
  - intros label lo hi dflt v Hv. rewrite lookup_empty in Hv. discriminate.
  - split; [rewrite Hs|]; reflexivity.
Defined.

Lemma page_id_not_page_size n : page_id n <> page_size_id.
Proof. unfold page_id, page_size_id. congruence. Qed.

Lemma page_id_not_cols n : page_id n <> cols_id.
Proof. unfold page_id, cols_id. congruence. Qed.

Lemma page_id_inj n m : page_id n = page_id m -> n = m.
Proof. unfold page_id. congruence. Qed.

(** What the session holds for the page widget once a run has ended: the
    value of the widget that the run has drawn, and nothing for a page
    widget of other bounds. *)
Lemma end_of_run_page total session n :
  end_of_run total session !! page_id n =
  if decide (n = pages (paginate total session))
  then session !! page_id n else None.
Proof.
  unfold end_of_run. case_decide as Hn.
  - destruct (session !! page_id n) as [v|] eqn:Hv.
    + apply map_lookup_filter_Some. split; [done|]. cbn. unfold drawn.
      rewrite Hn. set_solver.
    + apply map_lookup_filter_None. left. done.
  - apply map_lookup_filter_None. right. intros v _. cbn. unfold drawn.
    intros Hin. apply Hn.
    apply elem_of_cons in Hin as [Hin|Hin]; [by apply page_id_not_cols in Hin|].
    apply elem_of_cons in Hin as [Hin|Hin]; [by apply page_id_not_page_size in Hin|].
    apply list_elem_of_singleton in Hin. by apply page_id_inj.
Qed.

Lemma end_of_run_page_size total session :
  end_of_run total session !! page_size_id = session !! page_size_id.
Proof.
  unfold end_of_run. destruct (session !! page_size_id) as [v|] eqn:Hv.
  - apply map_lookup_filter_Some. split; [done|]. cbn. unfold drawn. set_solver.
  - apply map_lookup_filter_None. by left.
Qed.

Lemma end_of_run_in_bounds total session :
  in_bounds session -> in_bounds (end_of_run total session).
Proof.
  intros Hb label lo hi dflt v Hv. unfold end_of_run in Hv.
  apply map_lookup_filter_Some in Hv as [Hv _]. by apply (Hb label lo hi dflt).
Qed.

(** C4, as amended.  After the user changes the page size (or the number
    of columns), the page is between 1 and the number of pages computed from
    the new page size; it is the page shown before when the number of pages
    has not changed (as after a change of the number of columns), and page 1
    when it has. *)
Theorem page_after_resize (total : Z) (session : gmap widget_id Z) (v c : Z) :
  (1 <= total)%Z -> in_bounds session ->
  (10 <= v <= 100)%Z -> (2 <= c <= 6)%Z ->
  let before := paginate total session in
  let resized := paginate total (user_sets page_size_id v (end_of_run total session)) in
  let recolumned := paginate total (user_sets cols_id c (end_of_run total session)) in
  page_size resized = v /\
  pages resized = total_pages total v /\
  (1 <= page_number resized <= pages resized)%Z /\
  (pages resized = pages before -> page_number resized = page_number before) /\
  (pages resized <> pages before -> page_number resized = 1%Z) /\
  cols recolumned = c /\
  pages recolumned = pages before /\
  page_number recolumned = page_number before.
Proof.
  intros Htot Hb Hv Hc before resized recolumned.
  assert (Hps : page_size resized = v).
  { subst resized. unfold paginate, slider, widget_value, user_sets.
    cbn [page_size]. fold page_size_id. by rewrite lookup_insert_eq. }
  assert (Hpages : pages resized = total_pages total v).
  { subst resized. unfold paginate, slider, widget_value, user_sets.
    cbn [pages]. fold page_size_id. by rewrite lookup_insert_eq. }
  assert (Hpage : page_number resized =
                  default 1%Z (end_of_run total session !! page_id (pages resized))).
  { rewrite Hpages. subst resized.
    unfold paginate, slider, number_input, widget_value, user_sets.
    cbn [page_number]. fold page_size_id. rewrite lookup_insert_eq. cbn [default].
    fold (page_id (total_pages total v)).
    by rewrite lookup_insert_ne by (apply not_eq_sym, page_id_not_page_size). }
  assert (Hbefore : page_number before =
                    default 1%Z (session !! page_id (pages before))) by reflexivity.
  assert (Hcols : cols recolumned = c).
  { subst recolumned. unfold paginate, slider, widget_value, user_sets.
    cbn [cols]. fold cols_id. by rewrite lookup_insert_eq. }
  assert (Hps' : page_size recolumned = page_size before).
  { subst recolumned before. unfold paginate, slider, widget_value, user_sets.
    cbn [page_size]. fold page_size_id cols_id.
    rewrite lookup_insert_ne by (unfold cols_id, page_size_id; congruence).
    by rewrite end_of_run_page_size. }
  assert (Hpages' : pages recolumned = pages before).
  { change (pages recolumned) with (total_pages total (page_size recolumned)).
    by rewrite Hps'. }
  assert (Hpage' : page_number recolumned = page_number before).
  { change (page_number recolumned) with
      (default 1%Z (user_sets cols_id c (end_of_run total session)
                      !! page_id (pages recolumned))).
    rewrite Hpages', Hbefore. unfold user_sets.
    rewrite lookup_insert_ne by (apply not_eq_sym, page_id_not_cols).
    rewrite end_of_run_page. by rewrite decide_True. }
  rewrite end_of_run_page in Hpage.
  split; [done|]. split; [done|]. split; [|split; [|split]].
  - rewrite Hpage, Hpages. clear Hpage. pose proof (total_pages_pos total v).
    case_decide as Heq; cbn [default]; [|lia].
    destruct (session !! page_id (total_pages total v)) as [x|] eqn:Hx;
      cbn [default]; [|split; [done|exact H]].
    apply (Hb "📌 Page"%string 1%Z (total_pages total v) 1%Z x). exact Hx.
  - intros Heq. rewrite Hpage, Hbefore, Heq. by rewrite decide_True.
  - intros Hne. rewrite Hpage. by rewrite decide_False.
  - done.
Qed.

(** At a concrete input: from the last of ten pages of ten images to
    pages of thirty. *)
Lemma page_after_resize_witness :
  page_number (paginate 95 (user_sets page_size_id 30
                              (end_of_run 95 on_last_of_ten_pages))) = 1%Z.
Proof.
  destruct (page_after_resize 95 on_last_of_ten_pages 30 4)
    as (_ & _ & _ & _ & H & _); [lia| |lia|lia|].
  - intros label lo hi dflt x Hx. unfold on_last_of_ten_pages in Hx.
    apply lookup_insert_Some in Hx as [[[= <- <- <- <-] <-]|[_ Hx]]; [lia|].
    apply lookup_insert_Some in Hx as [[[= <- <- <- <-] <-]|[_ Hx]]; [lia|].
    rewrite lookup_empty in Hx. discriminate.
  - apply H. vm_compute. discriminate.
Defined.

(** C4 as it is stated fails: on the last of ten pages of ten images, a
    change of the page size to thirty leaves four pages; the page shown
    before, 10, exceeds 4, and the page becomes 1, not 4. *)
Lemma page_clamp_counterexample :
  let before := paginate 95 on_last_of_ten_pages in
  let resized := paginate 95 (user_sets page_size_id 30
                                (end_of_run 95 on_last_of_ten_pages)) in
  page_number before = 10%Z /\ pages resized = 4%Z /\
  (page_number before > pages resized)%Z /\
  page_number resized = 1%Z /\
  (page_number resized = pages resized -> False).
Proof. vm_compute. repeat split; discriminate. Qed.

(** ** Session selection *)

Lemma string_leb_trans x y z :
  String.leb x y = true -> String.leb y z = true -> String.leb x z = true.
Proof.
  revert y z. induction x as [|c1 x IH]; intros [|c2 y] [|c3 z]; try done.
  unfold String.leb in *. cbn [String.compare]. unfold Ascii.compare.
  destruct (N.compare_spec (N_of_ascii c1) (N_of_ascii c2)) as [H12|H12|H12];
    destruct (N.compare_spec (N_of_ascii c2) (N_of_ascii c3)) as [H23|H23|H23];
    destruct (N.compare_spec (N_of_ascii c1) (N_of_ascii c3)) as [H13|H13|H13];
    try done; try lia.
  apply IH.
Qed.

Lemma string_ltb_false_leb x y :
  String.ltb x y = false -> String.leb y x = true.
Proof.
  unfold String.ltb, String.leb. rewrite (String.compare_antisym y x).
  by destruct (String.compare x y).
Qed.

Lemma string_ltb_true_leb x y :
  String.ltb x y = true -> String.leb x y = true.
Proof. unfold String.ltb, String.leb. by destruct (String.compare x y). Qed.

Lemma insert_reverse_perm x l : insert_reverse x l ≡ₚ x :: l.
Proof.
  induction l as [|y l IH]; cbn; [done|].
  destruct (String.ltb _ _); [|done].
  rewrite IH. apply Permutation_swap.
Qed.

Lemma insert_reverse_sorted x l :
  StronglySorted name_ge l -> StronglySorted name_ge (insert_reverse x l).
Proof.
  induction 1 as [|y l Hs IH Hall]; cbn.
  - by repeat constructor.
  - destruct (String.ltb (folder_name x) (folder_name y)) eqn:Hlt.
    + constructor; [exact IH|].
      rewrite insert_reverse_perm. constructor; [|exact Hall].
      by apply string_ltb_true_leb.
    + pose proof (string_ltb_false_leb _ _ Hlt) as Hle.
      constructor; [by constructor|].
      constructor; [exact Hle|].
      eapply Forall_impl; [exact Hall|]. intros z Hz. unfold name_ge in *.
      by apply string_leb_trans with (folder_name y).
Qed.

Lemma sorted_by_name_reverse_perm l : sorted_by_name_reverse l ≡ₚ l.
Proof.
  induction l as [|x l IH]; cbn; [done|].
  by rewrite insert_reverse_perm, IH.
Qed.

Lemma sorted_by_name_reverse_sorted l :
  StronglySorted name_ge (sorted_by_name_reverse l).
Proof.
  induction l as [|x l IH]; cbn; [constructor|].
  by apply insert_reverse_sorted.
Qed.

(** The sessions that the selector shows are the sorted sessions, filtered. *)
Lemma select_session_sessions u listed text choice sessions name sel :
  select_session u listed text choice = Selected sessions name sel ->
  sessions = filter_sessions u text (sorted_by_name_reverse listed) /\
  selectbox (map folder_name sessions) choice = Some name /\
  next_named sessions name = Some sel.
Proof.
  unfold select_session. destruct listed as [|s0 listed]; [done|].
  set (sorted := sorted_by_name_reverse (s0 :: listed)).
  destruct (filter_sessions u text sorted) as [|s1 filtered] eqn:Hf; [done|].
  destruct (selectbox _ choice) as [n|] eqn:Hsel; [|done].
  destruct (next_named _ n) as [s|] eqn:Hnext; [|done].
  by intros [= <- <- <-].
Qed.

(** C6. The listed sessions are sorted by name in descending order: the
    sorted list holds the same sessions, each name is greater than or equal
    to all the names after it, and the search filter is applied to the
    sorted list.  The names 2024-01-10, 2024-03-05, 2023-12-01 come out as
    2024-03-05, 2024-01-10, 2023-12-01. *)
Theorem sessions_sorted_descending (listed : list Folder) :
  sorted_by_name_reverse listed ≡ₚ listed /\
  StronglySorted name_ge (sorted_by_name_reverse listed) /\
  (forall u text choice sessions name sel,
     select_session u listed text choice = Selected sessions name sel ->
     sessions = filter_sessions u text (sorted_by_name_reverse listed)) /\
  map folder_name
    (sorted_by_name_reverse
       [session_named "2024-01-10"; session_named "2024-03-05";
        session_named "2023-12-01"])
  = ["2024-03-05"; "2024-01-10"; "2023-12-01"]%string.
Proof.
  split; [apply sorted_by_name_reverse_perm|].
  split; [apply sorted_by_name_reverse_sorted|].
  split; [|reflexivity].
  intros u text choice sessions name sel H.
  by apply select_session_sessions in H as [? _].
Qed.

Lemma prefix_iff a s :
  String.prefix a s = true <-> exists post, s = (a +:+ post)%string.
Proof.
  revert s. induction a as [|c a IH]; intros [|c' s]; cbn.
  - split; [intros _; by exists EmptyString|done].
  - split; [intros _; by exists (String c' s)|done].
  - split; [done|]. by intros [post ?].
  - destruct (ascii_dec c c') as [->|Hne].
    + rewrite IH. split; intros [post H]; exists post.
      * by rewrite H.
      * by injection H.
    + split; [done|]. intros [post H]. injection H as ? _. done.
Qed.

(** [sub in s] holds exactly when [sub] stands somewhere in [s]. *)
Lemma contains_iff sub s :
  contains sub s = true <->
  exists pre post, s = (pre +:+ sub +:+ post)%string.
Proof.
  induction s as [|c s IH]; cbn [contains].
  - destruct (String.prefix sub EmptyString) eqn:Hp.
    + split; [|done]. intros _. apply prefix_iff in Hp as [post Hp].
      by exists EmptyString, post.
    + split; [done|]. intros (pre & post & H). exfalso.
      destruct pre as [|c pre]; [|done]. cbn in H.
      assert (String.prefix sub EmptyString = true) by (apply prefix_iff; eauto).
      congruence.
  - destruct (String.prefix sub (String c s)) eqn:Hp.
    + split; [|done]. intros _. apply prefix_iff in Hp as [post Hp].
      by exists EmptyString, post.
    + rewrite IH. split.
      * intros (pre & post & ->). by exists (String c pre), post.
      * intros (pre & post & H). destruct pre as [|c' pre]; cbn in H.
        -- assert (String.prefix sub (String c s) = true)
             by (apply prefix_iff; eauto). congruence.
        -- injection H as _ ->. by exists pre, post.
Qed.

(** The test of the filter is containment, the case of letters apart. *)
Lemma contains_lower_iff u text name :
  contains (str_lower u text) (str_lower u name) = true <->
  contains_ignoring_case u text name.
Proof. apply contains_iff. Qed.

(** The search is empty exactly when the stripped text is. *)
Lemma nonempty_search_of u text :
  nonempty (search_of u text) = nonempty (strip text).
Proof. apply str_lower_nonempty. Qed.




(** [find] gives the first element that passes the test: when the element
    of index [k] passes it, the element found stands at an index [i <= k]
    and no element before [i] passes the test. *)
Lemma find_first {A} (p : A -> bool) (l : list A) k y :
  l !! k = Some y -> p y = true ->
  exists i x, List.find p l = Some x /\ l !! i = Some x /\ p x = true /\
              i <= k /\
              forall j z, j < i -> l !! j = Some z -> p z = false.
Proof.
  revert k. induction l as [|a l IH]; intros k Hk Hp; [done|].
  cbn [List.find]. destruct (p a) eqn:Ha.
  - exists 0, a. repeat split; [done|lia|]. intros j z Hj. lia.
  - destruct k as [|k]; cbn in Hk; [congruence|].
    destruct (IH k Hk Hp) as (i & x & Hf & Hi & Hx & Hle & Hfirst).
    exists (S i), x. repeat split; [done|done|done|lia|].
    intros [|j] z Hj; cbn; [by intros [= <-]|].
    apply Hfirst. lia.
Qed.

(** C10. The session passed on is found by its name: whatever entry of the
    selector the user picks, the session selected is the first session of
    the (filtered, sorted) list that bears the name of that entry.  When an
    earlier session bears the same name as the entry picked, the session
    selected stands before the entry picked: the later of two sessions of
    the same name is never the one selected. *)
Theorem selected_by_name (u : unicode_data) (listed : list Folder)
  (text : string) (choice : nat) (chosen : Folder) :
  let sessions := filter_sessions u text (sorted_by_name_reverse listed) in
  sessions !! choice = Some chosen ->
  exists i selected_session,
    select_session u listed text choice
    = Selected sessions (folder_name chosen) selected_session /\
    sessions !! i = Some selected_session /\
    folder_name selected_session = folder_name chosen /\
    i <= choice /\
    (forall j s, j < i -> sessions !! j = Some s ->
                 folder_name s <> folder_name chosen) /\
    (forall k earlier, k < choice -> sessions !! k = Some earlier ->
                       folder_name earlier = folder_name chosen -> i < choice).
Proof.
  intros sessions Hc.
  destruct (find_first (fun s => String.eqb (folder_name s) (folder_name chosen))
              sessions choice chosen Hc (String.eqb_refl _))
    as (i & sel & Hf & Hi & Hsel & Hle & Hfirst).
  exists i, sel. apply String.eqb_eq in Hsel.
  split; [|split; [done|split; [done|split; [done|split]]]].
  - unfold select_session. destruct listed as [|s0 listed].
    { subst sessions. unfold filter_sessions in Hc. cbn in Hc.
      by destruct (nonempty _). }
    fold sessions. destruct sessions as [|s1 rest] eqn:Hs; [done|].
    unfold selectbox. rewrite list_lookup_fmap, Hc. cbn [fmap option_fmap option_map].
    unfold next_named. by rewrite Hf.
  - intros j s Hj Hs Hname. specialize (Hfirst j s Hj Hs).
    apply String.eqb_neq in Hfirst. done.
  - intros k earlier Hk He Hname.
    destruct (Nat.lt_ge_cases i choice) as [?|Hge]; [done|]. exfalso.
    assert (i = choice) by lia. subst i.
    specialize (Hfirst k earlier Hk He). apply String.eqb_neq in Hfirst. done.
Qed.

(** At a concrete input: the user picks the second of two sessions named
    2024-01-10; the first one is selected. *)
Lemma selected_by_name_witness :
  exists i selected_session,
    select_session ascii_only twin_sessions "" 2
    = Selected
        [ {| folder_id := "id-b"; folder_name := "2024-03-05" |};
          {| folder_id := "id-a"; folder_name := "2024-01-10" |};
          {| folder_id := "id-c"; folder_name := "2024-01-10" |} ]
        "2024-01-10" selected_session /\
    i < 2.
Proof.
  destruct (selected_by_name ascii_only twin_sessions "" 2
              {| folder_id := "id-c"; folder_name := "2024-01-10" |} eq_refl)
    as (i & sel & Hsel & _ & _ & _ & _ & Hlt).
  exists i, sel. split; [exact Hsel|].
  apply (Hlt 1 {| folder_id := "id-a"; folder_name := "2024-01-10" |});
    [lia|reflexivity|reflexivity].
Defined.

(** * Further properties *)

(** ** More on the retry loop *)

Lemma sleeps_in_app l1 l2 : sleeps_in (l1 ++ l2) = sleeps_in l1 + sleeps_in l2.
Proof. unfold sleeps_in. by rewrite List.filter_app, List.length_app. Qed.

Lemma sleeps_in_chunk_calls t : sleeps_in (chunk_calls t) = 0.
Proof. induction t; cbn; auto. Qed.

Lemma next_chunks_clock t fh w : clock (next_chunks t fh w).2 = clock w.
Proof.
  revert fh w. induction t as [data rest IH|data|e]; intros fh w; cbn;
    unfold bind; cbn; [by rewrite IH|done|done].
Qed.

Lemma next_chunks_data t fh w :
  transfer_error t = None ->
  (next_chunks t fh w).1 = Returned (fh ++ transfer_data t).
Proof.
  revert fh w. induction t as [data rest IH|data|e]; intros fh w He; cbn;
    unfold bind; cbn; [|done|done].
  rewrite IH by done. by rewrite <- app_assoc.
Qed.

Section RetryFacts.
Variable drive : drive_service.
Variable file_id : string.

Lemma attempt_download_clock w :
  clock (attempt_download drive file_id w).2 = clock w.
Proof. by rewrite attempt_download_eq, next_chunks_clock. Qed.

Lemma attempt_download_data w :
  transfer_error (get_media drive file_id (requests w)) = None ->
  (attempt_download drive file_id w).1
  = Returned (transfer_data (get_media drive file_id (requests w))).
Proof. intros H. rewrite attempt_download_eq. by apply next_chunks_data. Qed.

(** What any run of the loop adds to the log, and how long it takes. *)
Lemma retry_loop_bounds range : forall last w,
  let r := retry_loop drive range file_id last w in
  exists l, log r.2 = log w ++ l /\
    attempts_in l <= List.length range /\
    (range <> [] -> 1 <= attempts_in l) /\
    sleeps_in l <= attempts_in l /\
    requests r.2 = requests w + attempts_in l /\
    (clock w <= clock r.2)%Q /\ (clock r.2 <= clock w + worst_delay range)%Q.
Proof.
  induction range as [|a range IH]; intros last w; cbv zeta.
  - exists []. destruct last; cbn; rewrite app_nil_r;
      (split; [done|]; split; [lia|]; split; [done|]; split; [lia|];
       split; [lia|]; split; lra).
  - pose proof (attempt_download_result drive file_id w) as Hres.
    pose proof (attempt_download_log drive file_id w) as Hlog.
    pose proof (attempt_download_requests drive file_id w) as Hreq.
    pose proof (attempt_download_clock w) as Hclk.
    set (t := get_media drive file_id (requests w)) in *.
    assert (Hone : attempts_in (GetMedia file_id :: chunk_calls t) = 1).
    { change (GetMedia file_id :: chunk_calls t)
        with ([GetMedia file_id] ++ chunk_calls t).
      by rewrite attempts_in_app, attempts_in_chunk_calls. }
    assert (Hzero : sleeps_in (GetMedia file_id :: chunk_calls t) = 0).
    { change (GetMedia file_id :: chunk_calls t)
        with ([GetMedia file_id] ++ chunk_calls t).
      by rewrite sleeps_in_app, sleeps_in_chunk_calls. }
    assert (Hwd : (0 <= worst_delay range)%Q).
    { clear. induction range as [|b range IH]; cbn; lra. }
    destruct (transfer_error t) as [e|] eqn:Herr.
    + destruct (is_Exception e) eqn:He.
      * rewrite (retry_loop_caught _ _ _ _ _ _ _ Hres He).
        set (d := if is_SSLError e then _ else _).
        assert (Hd : (0 <= d <= 0.8)%Q) by (subst d; destruct (is_SSLError e); lra).
        set (w2 := (time_sleep d (attempt_download drive file_id w).2).2).
        destruct (IH (Some e) w2) as (l & Hl & Hatt & _ & Hsl & Hrq & Hc1 & Hc2).
        assert (Hclk2 : clock w2 = (clock w + d)%Q)
          by (subst w2; by rewrite time_sleep_clock, Hclk).
        exists ((GetMedia file_id :: chunk_calls t) ++ Sleep d :: l).
        rewrite !attempts_in_app, !sleeps_in_app, Hone, Hzero.
        change (Sleep d :: l) with ([Sleep d] ++ l).
        rewrite attempts_in_app, sleeps_in_app. cbn [attempts_in sleeps_in
          List.filter List.length app]. cbn [List.length].
        fold (attempts_in l). fold (sleeps_in l).
        split; [rewrite Hl; subst w2; rewrite time_sleep_log, Hlog;
                by rewrite <- !app_assoc|].
        split; [lia|]. split; [lia|]. split; [lia|].
        split; [rewrite Hrq; subst w2; rewrite time_sleep_requests, Hreq; lia|].
        rewrite Hclk2 in Hc1, Hc2. cbn [worst_delay]. split; lra.
      * rewrite (retry_loop_escapes _ _ _ _ _ _ _ Hres He). cbn [fst snd].
        exists (GetMedia file_id :: chunk_calls t). rewrite Hone, Hzero.
        split; [exact Hlog|]. split; [cbn; lia|]. split; [lia|]. split; [lia|].
        split; [lia|]. rewrite Hclk. cbn [worst_delay]. split; lra.
    + destruct Hres as [b Hres].
      rewrite (retry_loop_returned _ _ _ _ _ _ _ Hres). cbn [fst snd].
      exists (GetMedia file_id :: chunk_calls t). rewrite Hone, Hzero.
      split; [exact Hlog|]. split; [cbn; lia|]. split; [lia|]. split; [lia|].
      split; [lia|]. rewrite Hclk. cbn [worst_delay]. split; lra.
Qed.

End RetryFacts.

(** X1. Whatever the service does, one run of the undecorated
    [download_image_bytes] makes at least one and at most three download
    attempts, sleeps at most once per attempt, and takes no more than 2.4
    seconds of sleep in all. *)
Theorem download_is_bounded (drive : drive_service) (file_id : string) (w : world) :
  let r := download_image_bytes_wrapped drive file_id w in
  let l := events_since w r.2 in
  1 <= attempts_in l <= 3 /\
  sleeps_in l <= attempts_in l /\
  requests r.2 = requests w + attempts_in l /\
  (clock w <= clock r.2)%Q /\ (clock r.2 <= clock w + 2.4)%Q.
Proof.
  cbv zeta. unfold download_image_bytes_wrapped.
  destruct (retry_loop_bounds drive file_id (seq 0 3) None w)
    as (l & Hl & Hatt & Hone & Hsl & Hrq & Hc1 & Hc2). cbv zeta in *.
  rewrite (events_since_app _ _ _ Hl).
  cbn [seq List.length] in Hatt.
  remember (worst_delay (seq 0 3)) as wd eqn:Hwd.
  cbn [seq worst_delay] in Hwd. subst wd.
  split; [split; [apply Hone; discriminate|exact Hatt]|].
  split; [exact Hsl|]. split; [exact Hrq|]. split; [exact Hc1|]. lra.
Qed.

Lemma chunk_calls_raises t e :
  transfer_error t = Some e ->
  exists pre, chunk_calls t = pre ++ [Raises e] /\ sleeps_in pre = 0.
Proof.
  induction t as [data t IH|data|e']; cbn; intros H; [|done|].
  - destruct (IH H) as (pre & -> & Hs). by exists (NextChunkCall :: pre).
  - injection H as ->. by exists [NextChunkCall].
Qed.

Section RetryOutcomes.
Variable drive : drive_service.
Variable file_id : string.

(** The first attempt that succeeds ends the loop with its own bytes. *)
Lemma retry_loop_first_success k : forall range last w,
  k < List.length range ->
  (forall j, j < k -> exists e,
     transfer_error (get_media drive file_id (requests w + j)) = Some e /\
     is_Exception e = true) ->
  transfer_error (get_media drive file_id (requests w + k)) = None ->
  let r := retry_loop drive range file_id last w in
  r.1 = Returned (transfer_data (get_media drive file_id (requests w + k))) /\
  exists l, log r.2 = log w ++ l /\ attempts_in l = S k /\ sleeps_in l = k.
Proof.
  induction k as [|k IH]; intros [|a range] last w Hlen Hfail Hok; cbv zeta;
    cbn [List.length] in Hlen; try lia.
  - rewrite Nat.add_0_r in Hok.
    pose proof (attempt_download_data drive file_id w Hok) as Hres.
    rewrite (retry_loop_returned _ _ _ _ _ _ _ Hres). cbn [fst snd].
    rewrite Nat.add_0_r. split; [done|].
    exists (GetMedia file_id :: chunk_calls (get_media drive file_id (requests w))).
    split; [apply attempt_download_log|].
    change (GetMedia file_id :: ?l) with ([GetMedia file_id] ++ l).
    by rewrite attempts_in_app, sleeps_in_app, attempts_in_chunk_calls,
      sleeps_in_chunk_calls.
  - destruct (Hfail 0 ltac:(lia)) as (e & Herr & He). rewrite Nat.add_0_r in Herr.
    pose proof (attempt_download_result drive file_id w) as Hres.
    rewrite Herr in Hres.
    rewrite (retry_loop_caught _ _ _ _ _ _ _ Hres He).
    set (d := if is_SSLError e then _ else _).
    set (w2 := (time_sleep d (attempt_download drive file_id w).2).2).
    assert (Hreq : requests w2 = S (requests w))
      by (subst w2; rewrite time_sleep_requests; apply attempt_download_requests).
    destruct (IH range (Some e) w2) as (Hr & l & Hl & Hatt & Hsl); [lia| | |].
    { intros j Hj. rewrite Hreq. replace (S (requests w) + j)
        with (requests w + S j) by lia. apply Hfail. lia. }
    { rewrite Hreq. by replace (S (requests w) + k) with (requests w + S k) by lia. }
    rewrite Hreq in Hr.
    replace (S (requests w) + k) with (requests w + S k) in Hr by lia.
    split; [exact Hr|].
    exists ((GetMedia file_id :: chunk_calls (get_media drive file_id (requests w)))
            ++ Sleep d :: l).
    split.
    + rewrite Hl. subst w2. rewrite time_sleep_log, attempt_download_log.
      by rewrite <- !app_assoc.
    + change (GetMedia file_id :: ?l) with ([GetMedia file_id] ++ l).
      change (Sleep d :: l) with ([Sleep d] ++ l).
      rewrite !attempts_in_app, !sleeps_in_app, attempts_in_chunk_calls,
        sleeps_in_chunk_calls, Hatt, Hsl. cbn. lia.
Qed.

(** When the loop raises, what it raises is the last object that an attempt
    raised; after it the log has at most the sleep of the handler. *)
Lemma retry_loop_raises range : forall last w e,
  (retry_loop drive range file_id last w).1 = Raised e ->
  exists l, log (retry_loop drive range file_id last w).2 = log w ++ l /\
    ((range = [] /\ l = []) \/
     exists pre post, l = pre ++ Raises e :: post /\
                      (post = [] \/ exists d, post = [Sleep d])).
Proof.
  induction range as [|a range IH]; intros last w e Hr.
  - exists []. split; [destruct last; cbn; by rewrite app_nil_r|]. by left.
  - pose proof (attempt_download_result drive file_id w) as Hres.
    pose proof (attempt_download_log drive file_id w) as Hlog.
    set (t := get_media drive file_id (requests w)) in *.
    destruct (transfer_error t) as [e1|] eqn:Herr.
    + destruct (chunk_calls_raises t e1 Herr) as (pre_t & Hpre & _).
      destruct (is_Exception e1) eqn:He.
      * rewrite (retry_loop_caught _ _ _ _ _ _ _ Hres He) in Hr |- *.
        set (d := if is_SSLError e1 then _ else _) in *.
        set (w2 := (time_sleep d (attempt_download drive file_id w).2).2) in *.
        destruct (IH (Some e1) w2 e Hr) as (l & Hl & Hcase).
        exists ((GetMedia file_id :: chunk_calls t) ++ Sleep d :: l). split.
        { rewrite Hl. subst w2. rewrite time_sleep_log, Hlog.
          by rewrite <- !app_assoc. }
        right. destruct Hcase as [[-> ->]|(pre & post & -> & Hpost)].
        -- cbn in Hr. injection Hr as <-.
           exists (GetMedia file_id :: pre_t), [Sleep d]. rewrite Hpre.
           split; [cbn; by rewrite <- app_assoc|]. right. by exists d.
        -- exists ((GetMedia file_id :: chunk_calls t) ++ Sleep d :: pre), post.
           split; [|done]. cbn. by rewrite <- !app_assoc.
      * rewrite (retry_loop_escapes _ _ _ _ _ _ _ Hres He) in Hr |- *.
        cbn [fst snd] in *. injection Hr as <-.
        exists (GetMedia file_id :: chunk_calls t). split; [done|]. right.
        exists (GetMedia file_id :: pre_t), []. rewrite Hpre. by split; [|left].
    + destruct Hres as [b Hres].
      rewrite (retry_loop_returned _ _ _ _ _ _ _ Hres) in Hr. done.
Qed.

(** When every attempt fails, every turn of the loop sleeps, the last one
    too. *)
Lemma retry_loop_all_fail_sleeps :
  (forall k, exists e,
      transfer_error (get_media drive file_id k) = Some e /\
      is_Exception e = true) ->
  forall range last w, range <> [] ->
    exists l pre e,
      log (retry_loop drive range file_id last w).2 = log w ++ l /\
      l = pre ++ [Raises e; Sleep (if is_SSLError e then 0.8%Q else 0.5%Q)] /\
      (retry_loop drive range file_id last w).1 = Raised e /\
      sleeps_in l = List.length range.
Proof.
  intros Hfail range. induction range as [|a range IH]; intros last w Hne; [done|].
  destruct (Hfail (requests w)) as (e & Herr & He).
  pose proof (attempt_download_result drive file_id w) as Hres.
  rewrite Herr in Hres.
  pose proof (attempt_download_log drive file_id w) as Hlog.
  destruct (chunk_calls_raises _ e Herr) as (pre_t & Hpre & Hs0).
  rewrite (retry_loop_caught _ _ _ _ _ _ _ Hres He).
  set (d := if is_SSLError e then _ else _).
  set (w2 := (time_sleep d (attempt_download drive file_id w).2).2).
  assert (Hlog2 : log w2 = log w ++ (GetMedia file_id :: pre_t) ++ [Raises e; Sleep d]).
  { subst w2. rewrite time_sleep_log, Hlog, Hpre.
    rewrite <- ?app_assoc. cbn. rewrite <- ?app_assoc. done. }
  destruct range as [|b range].
  - exists ((GetMedia file_id :: pre_t) ++ [Raises e; Sleep d]),
      (GetMedia file_id :: pre_t), e.
    cbn [retry_loop raise_last_error raise fst snd].
    split; [exact Hlog2|]. split; [done|]. split; [done|].
    rewrite sleeps_in_app.
    change (GetMedia file_id :: pre_t) with ([GetMedia file_id] ++ pre_t).
    rewrite sleeps_in_app, Hs0. reflexivity.
  - destruct (IH (Some e) w2 ltac:(done)) as (l & pre & e' & Hl & -> & Hr & Hsl).
    exists (((GetMedia file_id :: pre_t) ++ [Raises e; Sleep d])
            ++ pre ++ [Raises e'; Sleep (if is_SSLError e' then 0.8%Q else 0.5%Q)]),
      (((GetMedia file_id :: pre_t) ++ [Raises e; Sleep d]) ++ pre), e'.
    split; [by rewrite Hl, Hlog2, <- !app_assoc|].
    split; [by rewrite <- !app_assoc|]. split; [exact Hr|].
    rewrite sleeps_in_app, Hsl, sleeps_in_app.
    change (GetMedia file_id :: pre_t) with ([GetMedia file_id] ++ pre_t).
    rewrite sleeps_in_app, Hs0. cbn. lia.
Qed.

(** A loop that has a turn to make starts with a download attempt. *)
Lemma retry_loop_starts a range last w :
  exists l, log (retry_loop drive (a :: range) file_id last w).2
            = log w ++ GetMedia file_id :: l.
Proof.
  pose proof (attempt_download_result drive file_id w) as Hres.
  pose proof (attempt_download_log drive file_id w) as Hlog.
  set (t := get_media drive file_id (requests w)) in *.
  destruct (transfer_error t) as [e|] eqn:Herr.
  - destruct (is_Exception e) eqn:He.
    + rewrite (retry_loop_caught _ _ _ _ _ _ _ Hres He).
      set (d := if is_SSLError e then _ else _).
      destruct (retry_loop_log drive file_id range (Some e)
                  (time_sleep d (attempt_download drive file_id w).2).2)
        as (l & Hl & _).
      exists (chunk_calls t ++ Sleep d :: l).
      rewrite Hl, time_sleep_log, Hlog. by rewrite <- !app_assoc.
    + rewrite (retry_loop_escapes _ _ _ _ _ _ _ Hres He). by eexists.
  - destruct Hres as [b Hres].
    rewrite (retry_loop_returned _ _ _ _ _ _ _ Hres). by eexists.
Qed.

(** The turn of rank [k] of the loop, when the attempts before it have
    failed and its own attempt raises the error [e]: the raise is followed at
    once by the sleep that the class of [e] selects, and only then by the
    next attempt, if there is a turn left. *)
Lemma retry_loop_backoff k : forall range last w e,
  k < List.length range ->
  (forall j, j < k -> exists e',
     transfer_error (get_media drive file_id (requests w + j)) = Some e' /\
     is_Exception e' = true) ->
  transfer_error (get_media drive file_id (requests w + k)) = Some e ->
  is_Exception e = true ->
  let r := retry_loop drive range file_id last w in
  let d := if is_SSLError e then 0.8%Q else 0.5%Q in
  exists pre post,
    log r.2 = log w ++ pre ++ [Raises e; Sleep d] ++ post /\
    attempts_in pre = S k /\ sleeps_in pre = k /\
    (S k < List.length range -> exists post', post = GetMedia file_id :: post') /\
    (List.length range = S k -> post = [] /\ r.1 = Raised e) /\
    (clock w + d <= clock r.2)%Q.
Proof.
  induction k as [|k IH]; intros [|a range] last w e Hlen Hfail Herr He; cbv zeta;
    cbn [List.length] in Hlen; try lia.
  - rewrite Nat.add_0_r in Herr.
    pose proof (attempt_download_result drive file_id w) as Hres.
    rewrite Herr in Hres.
    pose proof (attempt_download_log drive file_id w) as Hlog.
    pose proof (attempt_download_clock drive file_id w) as Hclk.
    destruct (chunk_calls_raises _ e Herr) as (pre_t & Hpre & Hs0).
    assert (Ha0 : attempts_in pre_t = 0).
    { pose proof (attempts_in_chunk_calls (get_media drive file_id (requests w))) as H.
      rewrite Hpre, attempts_in_app in H. lia. }
    rewrite (retry_loop_caught _ _ _ _ _ _ _ Hres He).
    set (d := if is_SSLError e then _ else _).
    set (w2 := (time_sleep d (attempt_download drive file_id w).2).2).
    assert (Hlog2 : log w2 = log w ++ (GetMedia file_id :: pre_t) ++ [Raises e; Sleep d]).
    { subst w2. rewrite time_sleep_log, Hlog, Hpre.
      rewrite <- ?app_assoc. cbn. rewrite <- ?app_assoc. done. }
    assert (Hclk2 : clock w2 = (clock w + d)%Q)
      by (subst w2; by rewrite time_sleep_clock, Hclk).
    destruct (retry_loop_bounds drive file_id range (Some e) w2)
      as (l & Hl & _ & _ & _ & _ & Hc1 & _). cbv zeta in Hl, Hc1.
    exists (GetMedia file_id :: pre_t), l.
    split; [rewrite Hl, Hlog2; by rewrite <- !app_assoc|].
    split; [change (GetMedia file_id :: pre_t) with ([GetMedia file_id] ++ pre_t);
            rewrite attempts_in_app, Ha0; reflexivity|].
    split; [change (GetMedia file_id :: pre_t) with ([GetMedia file_id] ++ pre_t);
            rewrite sleeps_in_app, Hs0; reflexivity|].
    split; [|split; [|by rewrite <- Hclk2]].
    + intros Hmore. destruct range as [|b range]; [cbn in Hmore; lia|].
      destruct (retry_loop_starts b range (Some e) w2) as (l' & Hl').
      exists l'. rewrite Hl in Hl'. by apply app_inv_head in Hl'.
    + intros Hlast. destruct range as [|b range]; [|cbn in Hlast; lia].
      cbn [retry_loop raise_last_error raise fst snd] in Hl |- *.
      split; [|done]. symmetry. apply (app_inv_head (log w2)).
      by rewrite app_nil_r.
  - destruct (Hfail 0 ltac:(lia)) as (e0 & Herr0 & He0).
    rewrite Nat.add_0_r in Herr0.
    pose proof (attempt_download_result drive file_id w) as Hres.
    rewrite Herr0 in Hres.
    pose proof (attempt_download_log drive file_id w) as Hlog.
    pose proof (attempt_download_clock drive file_id w) as Hclk.
    rewrite (retry_loop_caught _ _ _ _ _ _ _ Hres He0).
    set (d0 := if is_SSLError e0 then _ else _).
    set (w2 := (time_sleep d0 (attempt_download drive file_id w).2).2).
    assert (Hreq : requests w2 = S (requests w))
      by (subst w2; rewrite time_sleep_requests; apply attempt_download_requests).
    assert (Hclk2 : clock w2 = (clock w + d0)%Q)
      by (subst w2; by rewrite time_sleep_clock, Hclk).
    assert (Hd0 : (0 <= d0)%Q) by (subst d0; destruct (is_SSLError e0); lra).
    destruct (IH range (Some e0) w2 e) as
      (pre & post & Hl & Hatt & Hsl & Hmore & Hlast & Hc); [lia| | |done|].
    { intros j Hj. rewrite Hreq. replace (S (requests w) + j)
        with (requests w + S j) by lia. apply Hfail. lia. }
    { rewrite Hreq. by replace (S (requests w) + k) with (requests w + S k) by lia. }
    cbv zeta in Hl, Hlast, Hc.
    exists ((GetMedia file_id :: chunk_calls (get_media drive file_id (requests w)))
            ++ Sleep d0 :: pre), post.
    split.
    { rewrite Hl. subst w2. rewrite time_sleep_log, Hlog.
      rewrite <- ?app_assoc. cbn. rewrite <- ?app_assoc. done. }
    split; [|split].
    { change (GetMedia file_id :: ?l) with ([GetMedia file_id] ++ l).
      change (Sleep d0 :: pre) with ([Sleep d0] ++ pre).
      rewrite !attempts_in_app, attempts_in_chunk_calls, Hatt. reflexivity. }
    { change (GetMedia file_id :: ?l) with ([GetMedia file_id] ++ l).
      change (Sleep d0 :: pre) with ([Sleep d0] ++ pre).
      rewrite !sleeps_in_app, sleeps_in_chunk_calls, Hsl. reflexivity. }
    split; [intros H; apply Hmore; cbn [List.length] in H; lia|].
    split; [intros H; apply Hlast; cbn [List.length] in H; lia|].
    rewrite Hclk2 in Hc. lra.
Qed.

End RetryOutcomes.

(** C8. Within the retry loop of the (undecorated) [download_image_bytes],
    a failed attempt is followed by a wait that its error selects: when the
    attempts before the one of rank [k] (of three) have failed and that one
    raises the error [e], the raise is followed at once by [time.sleep(0.8)]
    if [e] is an [ssl.SSLError] and by [time.sleep(0.5)] if it is any other
    instance of [Exception]; the next attempt comes after the wait, and
    after the wait that follows the third attempt the error is raised.  The
    duration depends on the class of the error alone. *)
Theorem backoff_by_error_class (drive : drive_service) (file_id : string)
  (w : world) (k : nat) (e : exn) :
  k < 3 ->
  (forall j, j < k -> exists e',
     transfer_error (get_media drive file_id (requests w + j)) = Some e' /\
     is_Exception e' = true) ->
  transfer_error (get_media drive file_id (requests w + k)) = Some e ->
  is_Exception e = true ->
  let r := download_image_bytes_wrapped drive file_id w in
  let d := if is_SSLError e then 0.8%Q else 0.5%Q in
  exists pre post,
    events_since w r.2 = pre ++ [Raises e; Sleep d] ++ post /\
    attempts_in pre = S k /\ sleeps_in pre = k /\
    (k < 2 -> exists post', post = GetMedia file_id :: post') /\
    (k = 2 -> post = [] /\ r.1 = Raised e) /\
    (clock w + d <= clock r.2)%Q.
Proof.
  intros Hk Hfail Herr He. cbv zeta. unfold download_image_bytes_wrapped.
  destruct (retry_loop_backoff drive file_id k (seq 0 3) None w e)
    as (pre & post & Hl & Hatt & Hsl & Hmore & Hlast & Hc);
    [cbn; lia|done|done|done|].
  cbv zeta in Hl, Hlast, Hc. exists pre, post.
  rewrite (events_since_app _ _ _ Hl).
  split; [done|]. split; [done|]. split; [done|].
  split; [intros H; apply Hmore; cbn; lia|].
  split; [intros H; apply Hlast; cbn; lia|done].
Qed.

(** At a concrete input: on a service whose downloads all break, the second
    attempt breaks with a connection error after one chunk. *)
Lemma backoff_by_error_class_witness :
  exists pre post,
    events_since initial_world
      (download_image_bytes_wrapped broken_drive "photo-1" initial_world).2
    = pre ++ [Raises a_ConnectionError; Sleep 0.5%Q] ++ post /\
    attempts_in pre = 2 /\ sleeps_in pre = 1 /\
    exists post', post = GetMedia "photo-1" :: post'.
Proof.
  destruct (backoff_by_error_class broken_drive "photo-1" initial_world 1
              a_ConnectionError) as (pre & post & Hl & Hatt & Hsl & Hmore & _);
    [lia| |reflexivity|reflexivity|].
  - intros j Hj. assert (j = 0) as -> by lia. by exists an_SSLError.
  - exists pre, post. split; [exact Hl|]. split; [exact Hatt|].
    split; [exact Hsl|]. apply Hmore. lia.
Defined.


(** X2. When the attempts before the [k]-th one (of at most three) raise
    errors and the [k]-th one completes, the undecorated
    [download_image_bytes] returns the chunks of that attempt, in order, and
    nothing of what the failed attempts had received; it has then made
    [k + 1] attempts and slept [k] times. *)
Theorem first_success_wins (drive : drive_service) (file_id : string)
  (w : world) (k : nat) :
  k < 3 ->
  (forall j, j < k -> exists e,
     transfer_error (get_media drive file_id (requests w + j)) = Some e /\
     is_Exception e = true) ->
  transfer_error (get_media drive file_id (requests w + k)) = None ->
  let r := download_image_bytes_wrapped drive file_id w in
  r.1 = Returned (transfer_data (get_media drive file_id (requests w + k))) /\
  attempts_in (events_since w r.2) = S k /\
  sleeps_in (events_since w r.2) = k.
Proof.
  intros Hk Hfail Hok. cbv zeta. unfold download_image_bytes_wrapped.
  destruct (retry_loop_first_success drive file_id k (seq 0 3) None w)
    as (Hr & l & Hl & Hatt & Hsl); [cbn; lia|done|done|].
  by rewrite (events_since_app _ _ _ Hl).
Qed.

(** At a concrete input: an SSL error after one chunk, then a complete
    transfer of two chunks. *)
Lemma first_success_wins_witness :
  (download_image_bytes_wrapped flaky_drive "photo-1" initial_world).1
  = Returned [Byte.x89; Byte.x50].
Proof.
  destruct (first_success_wins flaky_drive "photo-1" initial_world 1)
    as (Hr & _); [lia| |reflexivity|exact Hr].
  intros j Hj. assert (j = 0) as -> by lia. by exists an_SSLError.
Defined.

(** X3. When the undecorated [download_image_bytes] raises, the object it
    raises is the last one that a download attempt raised, followed in the
    log by at most the sleep of its handler: in particular [raise
    last_error] never meets a [last_error] that is [None]. *)
Theorem raises_last_attempt_error (drive : drive_service) (file_id : string)
  (w : world) (e : exn) :
  (download_image_bytes_wrapped drive file_id w).1 = Raised e ->
  exists pre post,
    events_since w (download_image_bytes_wrapped drive file_id w).2
    = pre ++ Raises e :: post /\
    (post = [] \/ exists d, post = [Sleep d]).
Proof.
  unfold download_image_bytes_wrapped. intros Hr.
  destruct (retry_loop_raises drive file_id (seq 0 3) None w e Hr)
    as (l & Hl & [[Hnil _]|Hcase]); [done|].
  by rewrite (events_since_app _ _ _ Hl).
Qed.

(** At a concrete input: a service on which every download breaks. *)
Lemma raises_last_attempt_error_witness :
  exists pre post,
    events_since initial_world
      (download_image_bytes_wrapped broken_drive "photo-1" initial_world).2
    = pre ++ Raises an_SSLError :: post /\
    (post = [] \/ exists d, post = [Sleep d]).
Proof.
  exact (raises_last_attempt_error broken_drive "photo-1" initial_world
           an_SSLError eq_refl).
Defined.

(** X4. When every attempt raises an error, the undecorated
    [download_image_bytes] sleeps three times: after the third attempt too
    it sleeps (0.8 after an SSL error, 0.5 otherwise) before it raises the
    error of that attempt. *)
Theorem sleeps_before_giving_up (drive : drive_service) (file_id : string)
  (w : world) :
  (forall k, exists e,
      transfer_error (get_media drive file_id k) = Some e /\
      is_Exception e = true) ->
  let r := download_image_bytes_wrapped drive file_id w in
  exists pre e,
    events_since w r.2
    = pre ++ [Raises e; Sleep (if is_SSLError e then 0.8%Q else 0.5%Q)] /\
    r.1 = Raised e /\
    sleeps_in (events_since w r.2) = 3.
Proof.
  intros Hfail. cbv zeta. unfold download_image_bytes_wrapped.
  destruct (retry_loop_all_fail_sleeps drive file_id Hfail (seq 0 3) None w)
    as (l & pre & e & Hl & Hpre & Hr & Hsl); [done|].
  rewrite (events_since_app _ _ _ Hl). exists pre, e. by rewrite <- Hpre.
Qed.

(** At a concrete input: a service on which every download breaks. *)
Lemma sleeps_before_giving_up_witness :
  sleeps_in (events_since initial_world
    (download_image_bytes_wrapped broken_drive "photo-1" initial_world).2) = 3.
Proof.
  destruct (sleeps_before_giving_up broken_drive "photo-1" initial_world)
    as (pre & e & _ & _ & H); [|exact H].
  intros k. cbn. destruct (Nat.even k); eexists; split; reflexivity.
Defined.

(** ** More on the cached query layer *)

Lemma store_of_with_store_other f g s w :
  f <> g -> store_of g (with_store f s w) = store_of g w.
Proof. by destruct f, g. Qed.

(** One run of a folder-name or list function: one call, no sleep. *)
Lemma wrapped_metadata_once (drive : drive_service) (f : cached_fn)
  (arg : string) (w : world) :
  f <> DownloadImageBytes ->
  requests (wrapped drive f arg w).2 = requests w + 1 /\
  clock (wrapped drive f arg w).2 = clock w /\
  sleeps_in (events_since w (wrapped drive f arg w).2) = 0.
Proof.
  intros Hf. split; [|split].
  - destruct f; [| | |done]; cbn [wrapped];
      unfold get_folder_name_wrapped, list_folders_wrapped, list_images_wrapped,
        bind, request; cbn [fst snd].
    + destruct (files_get drive arg (requests w)) as [[n|]|e]; cbn; lia.
    + destruct (files_list_folders drive arg (requests w)) as [r|e]; cbn; lia.
    + destruct (files_list_images drive arg (requests w)) as [r|e]; cbn; lia.
  - destruct f; [| | |done]; cbn [wrapped];
      unfold get_folder_name_wrapped, list_folders_wrapped, list_images_wrapped,
        bind, request; cbn [fst snd].
    + by destruct (files_get drive arg (requests w)) as [[n|]|e].
    + by destruct (files_list_folders drive arg (requests w)) as [r|e].
    + by destruct (files_list_images drive arg (requests w)) as [r|e].
  - unfold events_since.
    destruct f; [| | |done]; cbn [wrapped];
      unfold get_folder_name_wrapped, list_folders_wrapped, list_images_wrapped,
        bind, request; cbn [fst snd].
    + destruct (files_get drive arg (requests w)) as [[n|]|e]; cbn;
        by rewrite ?drop_app_length, <- ?app_assoc, ?drop_app_length.
    + destruct (files_list_folders drive arg (requests w)) as [r|e]; cbn;
        by rewrite ?drop_app_length, <- ?app_assoc, ?drop_app_length.
    + destruct (files_list_images drive arg (requests w)) as [r|e]; cbn;
        by rewrite ?drop_app_length, <- ?app_assoc, ?drop_app_length.
Qed.

(** X5. The folder-name and list functions are not retried: whatever the
    service answers, each of them calls it exactly once and never sleeps,
    and an error of the service is raised to the caller as it is. *)
Theorem metadata_calls_are_not_retried (drive : drive_service) (f : cached_fn)
  (arg : string) (w : world) :
  f <> DownloadImageBytes ->
  let r := wrapped drive f arg w in
  requests r.2 = requests w + 1 /\
  clock r.2 = clock w /\
  sleeps_in (events_since w r.2) = 0 /\
  (forall e, files_get drive arg (requests w) = Raised e ->
             (get_folder_name_wrapped drive arg w).1 = Raised e) /\
  (forall e, files_list_folders drive arg (requests w) = Raised e ->
             (list_folders_wrapped drive arg w).1 = Raised e) /\
  (forall e, files_list_images drive arg (requests w) = Raised e ->
             (list_images_wrapped drive arg w).1 = Raised e).
Proof.
  intros Hf. cbv zeta.
  destruct (wrapped_metadata_once drive f arg w Hf) as (H1 & H2 & H3).
  split; [done|]. split; [done|]. split; [done|]. split; [|split].
  - intros e He. unfold get_folder_name_wrapped, bind, request. cbn [fst snd].
    by rewrite He.
  - intros e He. unfold list_folders_wrapped, bind, request. cbn [fst snd].
    by rewrite He.
  - intros e He. unfold list_images_wrapped, bind, request. cbn [fst snd].
    by rewrite He.
Qed.

(** At a concrete input: a listing on a service that answers nothing. *)
Lemma metadata_calls_are_not_retried_witness :
  requests (list_folders_wrapped broken_drive "studio-a" initial_world).2 = 1 /\
  (list_folders_wrapped broken_drive "studio-a" initial_world).1
  = Raised a_ConnectionError.
Proof.
  destruct (metadata_calls_are_not_retried broken_drive ListFolders "studio-a"
              initial_world) as (H1 & _ & _ & _ & H2 & _); [discriminate|].
  split; [exact H1|]. by apply H2.
Defined.

Lemma lookup_fresh_stored_now f arg v w :
  store_of f w !! arg = Some (v, clock w) -> lookup_fresh f arg w = Some v.
Proof.
  intros H. unfold lookup_fresh. rewrite H, fresh_intro; [done|].
  intros t Ht. destruct f; cbn in Ht; try discriminate;
    injection Ht as <-; lra.
Qed.

(** X6. An answer of the service without the key it is read for: a listing
    without a files key gives the empty list, which is stored like any other
    value; a folder without a name raises [KeyError], and nothing is
    stored. *)
Theorem answers_without_their_key (drive : drive_service) (arg : string)
  (w : world) :
  (lookup_fresh ListFolders arg w = None ->
   files_list_folders drive arg (requests w) = Returned None ->
   (list_folders drive arg w).1 = Returned [] /\
   lookup_fresh ListFolders arg (list_folders drive arg w).2 = Some []) /\
  (lookup_fresh ListImages arg w = None ->
   files_list_images drive arg (requests w) = Returned None ->
   (list_images drive arg w).1 = Returned [] /\
   lookup_fresh ListImages arg (list_images drive arg w).2 = Some []) /\
  (lookup_fresh GetFolderName arg w = None ->
   files_get drive arg (requests w) = Returned None ->
   (get_folder_name drive arg w).1 = Raised KeyError_name /\
   lookup_fresh GetFolderName arg (get_folder_name drive arg w).2 = None).
Proof.
  split; [|split].
  - intros Hlk Hans. unfold list_folders.
    pose proof (cache_data_miss_spec drive ListFolders arg w Hlk) as (_ & _ & Hst).
    assert (Hr : (cache_data drive ListFolders arg w).1 = Returned []).
    { rewrite (cache_data_miss _ _ _ _ Hlk). cbn [wrapped].
      unfold list_folders_wrapped, bind, request. cbn [fst snd with_requests
        with_log requests]. by rewrite Hans. }
    split; [exact Hr|]. apply lookup_fresh_stored_now. by apply Hst.
  - intros Hlk Hans. unfold list_images.
    pose proof (cache_data_miss_spec drive ListImages arg w Hlk) as (_ & _ & Hst).
    assert (Hr : (cache_data drive ListImages arg w).1 = Returned []).
    { rewrite (cache_data_miss _ _ _ _ Hlk). cbn [wrapped].
      unfold list_images_wrapped, bind, request. cbn [fst snd with_requests
        with_log requests]. by rewrite Hans. }
    split; [exact Hr|]. apply lookup_fresh_stored_now. by apply Hst.
  - intros Hlk Hans. unfold get_folder_name.
    rewrite (cache_data_miss _ _ _ _ Hlk). cbn [wrapped].
    unfold get_folder_name_wrapped, bind, request. cbn [fst snd with_requests
      with_log requests]. rewrite Hans. cbn. split; [done|].
    unfold lookup_fresh in *. cbn in *. exact Hlk.
Qed.

(** X7. Expiry: a call of a folder-name or list function made 300 seconds
    or more after the entry was stored does not use the entry; it runs the
    wrapped function once and, when that returns, its value replaces the
    entry, stored at the time of the return. *)
Theorem stale_entry_is_refetched (drive : drive_service) (f : cached_fn)
  (arg : string) (w : world) (v : value_of f) (stored_at : Q) :
  f <> DownloadImageBytes ->
  store_of f w !! arg = Some (v, stored_at) ->
  (stored_at + 300 <= clock w)%Q ->
  let r := cache_data drive f arg w in
  runs_in f arg (events_since w r.2) = 1 /\
  requests r.2 = requests w + 1 /\
  (forall v', r.1 = Returned v' ->
     store_of f r.2 !! arg = Some (v', clock r.2) /\
     lookup_fresh f arg r.2 = Some v').
Proof.
  intros Hf Hst Hold. cbv zeta.
  assert (Hlk : lookup_fresh f arg w = None).
  { unfold lookup_fresh. rewrite Hst. unfold fresh.
    destruct f; cbn; try done;
      destruct (Qlt_le_dec (clock w) (stored_at + 300)); try done; lra. }
  destruct (cache_data_miss_spec drive f arg w Hlk) as (_ & (l & Hl & Hq) & Hstored).
  split; [|split].
  - rewrite (events_since_app _ _ _ Hl), runs_in_Enter, runs_in_quiet; done.
  - rewrite (cache_data_miss _ _ _ _ Hlk).
    pose proof (wrapped_metadata_once drive f arg
                  (with_log (log w ++ [Enter f arg]) w) Hf) as (Hreq & _).
    destruct (wrapped drive f arg _) as [[v'|e] w1]; cbn [fst snd] in *;
      by rewrite ?requests_with_store, Hreq.
  - intros v' Hv'. split; [by apply Hstored|].
    apply lookup_fresh_stored_now. by apply Hstored.
Qed.

(** At a concrete input: a listing without a files key. *)
Lemma answers_without_their_key_witness :
  (list_folders flaky_drive "studio-a" initial_world).1 = Returned [] /\
  lookup_fresh ListFolders "studio-a"
    (list_folders flaky_drive "studio-a" initial_world).2 = Some [].
Proof.
  exact (proj1 (answers_without_their_key flaky_drive "studio-a" initial_world)
           eq_refl eq_refl).
Defined.

(** At a concrete input: a listing 300 seconds after an empty one was
    stored. *)
Lemma stale_entry_is_refetched_witness :
  runs_in ListFolders "studio-a"
    (events_since five_minutes_later
       (cache_data demo_drive ListFolders "studio-a" five_minutes_later).2) = 1.
Proof.
  refine (proj1 (stale_entry_is_refetched demo_drive ListFolders "studio-a"
                   five_minutes_later [] 0%Q _ _ _)).
  - discriminate.
  - reflexivity.
  - discriminate.
Defined.

Lemma cache_data_stores_on_raise (drive : drive_service) f arg w e :
  (cache_data drive f arg w).1 = Raised e ->
  forall g, store_of g (cache_data drive f arg w).2 = store_of g w.
Proof.
  intros Hr g. destruct (lookup_fresh f arg w) as [v|] eqn:Hlk.
  - by rewrite (cache_data_hit _ _ _ _ _ Hlk) in Hr.
  - rewrite (cache_data_miss _ _ _ _ Hlk) in Hr |- *.
    pose proof (quiet_wrapped drive f arg (with_log (log w ++ [Enter f arg]) w))
      as (Hst & _).
    destruct (wrapped drive f arg _) as [[v|e'] w1]; cbn [fst snd] in *; [done|].
    rewrite Hst. by destruct g.
Qed.

Lemma cache_data_other_entries (drive : drive_service) f arg w g a :
  g <> f \/ a <> arg ->
  store_of g (cache_data drive f arg w).2 !! a = store_of g w !! a.
Proof.
  intros Hne. destruct (lookup_fresh f arg w) as [v|] eqn:Hlk.
  - by rewrite (cache_data_hit _ _ _ _ _ Hlk).
  - rewrite (cache_data_miss _ _ _ _ Hlk).
    pose proof (quiet_wrapped drive f arg (with_log (log w ++ [Enter f arg]) w))
      as (Hst & _).
    destruct (wrapped drive f arg _) as [[v|e'] w1]; cbn [fst snd] in *.
    + assert (Hw : forall h, store_of h w1 = store_of h w).
      { intros h. rewrite Hst. by destruct h. }
      assert (g = f \/ g <> f) as [->|Hgf]
        by (destruct g, f; (by left) || (by right)).
      * rewrite store_of_with_store.
        destruct Hne as [?|Ha]; [done|].
        rewrite lookup_insert_ne by done. by rewrite Hw.
      * rewrite store_of_with_store_other by (by apply not_eq_sym). by rewrite Hw.
    + rewrite Hst. by destruct g.
Qed.

(** X8. A call of a cached function touches one entry at most: the entries
    of every other function and of every other argument are as they were,
    and a call that raises leaves all the stores as they were. *)
Theorem cache_entries_are_independent (drive : drive_service) (f : cached_fn)
  (arg : string) (w : world) :
  let r := cache_data drive f arg w in
  (forall g a, g <> f \/ a <> arg -> store_of g r.2 !! a = store_of g w !! a) /\
  (forall e, r.1 = Raised e -> forall g, store_of g r.2 = store_of g w).
Proof.
  cbv zeta. split.
  - intros g a. apply cache_data_other_entries.
  - intros e. apply cache_data_stores_on_raise.
Qed.

(** ** More on the gallery renderer *)

Section RendererOutcomes.
Variable drive : drive_service.
Variable pil : imaging.
Variable st : streamlit.

(** A raise that is not an instance of [Exception] goes through the [try]
    statement as it is. *)
Lemma render_image_escape img max_size w e :
  (show_image drive pil st img max_size w).1 = Raised e ->
  is_Exception e = false ->
  render_image drive pil st img max_size w
  = (Raised e, (show_image drive pil st img max_size w).2).
Proof.
  intros Hr He. unfold render_image, try_except_Exception.
  rewrite try_body_show_image.
  destruct (show_image drive pil st img max_size w) as [[p|e'] w1];
    cbn [fst snd] in *; [done|].
  injection Hr as ->. by rewrite He.
Qed.

Lemma render_loop_stops cols max_size :
  (0 < cols)%Z ->
  forall pre post bad pils rest e i w,
    let columns := map Column (seq 0 (Z.to_nat cols)) in
    try_outcomes drive pil st columns cols max_size i (pre ++ bad :: post) w
    = map Returned pils ++ Raised e :: rest ->
    List.length pils = List.length pre ->
    is_Exception e = false ->
    (render_loop drive pil st columns cols max_size i (pre ++ bad :: post) w).1
    = Raised e /\
    render_loop drive pil st columns cols max_size i (pre ++ bad :: post) w
    = render_loop drive pil st columns cols max_size i (pre ++ [bad]) w.
Proof.
  intros Hcols pre post bad. induction pre as [|p pre IH];
    intros [|pil0 pils] rest e i w; cbv zeta; cbn [List.length]; try done.
  - intros Houts _ He. cbn [app render_loop try_outcomes] in *.
    rewrite columns_lookup in * by done. set (c := Column _) in *.
    unfold bind, with_container in *.
    set (w0 := with_page c (page w) w) in *.
    assert (Hr : (show_image drive pil st bad max_size w0).1 = Raised e).
    { destruct (render_image drive pil st bad max_size w0) as [[u|e'] w'];
        cbn in Houts; by injection Houts. }
    rewrite (render_image_escape _ _ _ _ Hr He). by cbn.
  - intros Houts [= Hlen] He. cbn [app render_loop try_outcomes map] in *.
    rewrite columns_lookup in * by done. set (c := Column _) in *.
    unfold bind in *.
    destruct (with_container c (render_image drive pil st p max_size) w)
      as [[u|e'] w'] eqn:Hw.
    + injection Houts as _ Houts. by apply (IH pils rest e (S i) w').
    + exfalso. injection Houts as _ Houts.
      destruct pils; cbn in Houts; discriminate.
Qed.

End RendererOutcomes.

(** X9. A raise that is not an instance of [Exception] (an interrupt from
    the keyboard, say) is not isolated: when the [try] body (fetch, decode,
    display) returns for the images [pre] and raises such an object for the
    next image, [render_gallery] raises that object; the page shows the
    pictures of [pre] and nothing more, and the images after the one that
    raised are not touched at all. *)
Theorem uncaught_raise_stops_the_page (drive : drive_service) (pil : imaging)
  (st : streamlit) (pre post : list ImageDescriptor) (bad : ImageDescriptor)
  (pils_pre : list pil_image) (rest : list (result pil_image)) (e : exn)
  (cols : Z) (max_size : Z * Z) (w : world) :
  (0 < cols)%Z ->
  try_outcomes drive pil st (map Column (seq 0 (Z.to_nat cols))) cols max_size 0
    (pre ++ bad :: post) w
  = map Returned pils_pre ++ Raised e :: rest ->
  List.length pils_pre = List.length pre ->
  is_Exception e = false ->
  let r := render_gallery drive pil st (pre ++ bad :: post) cols max_size w in
  r.1 = Raised e /\
  page r.2 = page w ++ grid_from cols 0 (image_cells pils_pre pre) /\
  r = render_gallery drive pil st (pre ++ [bad]) cols max_size w.
Proof.
  intros Hcols Houts Hlen He r.
  destruct (render_gallery_spec drive pil st (pre ++ bad :: post) cols max_size w Hcols)
    as (_ & Hp & _). cbv zeta in Hp. rewrite Houts in Hp.
  assert (Hloop := render_loop_stops drive pil st cols max_size Hcols pre post bad
                     pils_pre rest e 0 w Houts Hlen He).
  destruct Hloop as [Hr Heq].
  assert (Hg : forall images,
             render_gallery drive pil st images cols max_size w
             = render_loop drive pil st (map Column (seq 0 (Z.to_nat cols))) cols
                 max_size 0 images w).
  { intros images. unfold render_gallery, st_columns, bind.
    destruct (Z.leb_spec cols 0) as [?|_]; [lia|]. reflexivity. }
  subst r. rewrite !Hg. split; [exact Hr|]. split; [|exact Heq].
  rewrite <- Hg, Hp. f_equal.
  rewrite cells_of_returned by done. cbn [cells_of cell_of]. rewrite He.
  by rewrite app_nil_r.
Qed.

(** At a concrete input: a page whose first download is interrupted. *)
Lemma uncaught_raise_stops_the_page_witness :
  (render_gallery interrupted_drive demo_pil demo_st demo_images 4 default_max_size
     initial_world).1 = Raised a_KeyboardInterrupt /\
  page (render_gallery interrupted_drive demo_pil demo_st demo_images 4 default_max_size
          initial_world).2 = [].
Proof.
  destruct (uncaught_raise_stops_the_page interrupted_drive demo_pil demo_st []
              (tail demo_images)
              {| image_id := "photo-1"; image_name := "IMG_0001.jpg";
                 image_mimeType := "image/jpeg" |}
              [] [] a_KeyboardInterrupt 4 default_max_size initial_world)
    as (Hr & Hp & _); [reflexivity..|].
  split; [exact Hr|exact Hp].
Defined.

(** X10. An image whose bytes are stored is loaded without the service: no
    call, no download attempt, no time spent; what is decoded is the stored
    bytes, and the stores stay as they are, however long ago the bytes were
    stored. *)
Theorem stored_image_needs_no_download (drive : drive_service) (pil : imaging)
  (img : ImageDescriptor) (max_size : Z * Z) (w : world)
  (b : bytes) (stored_at : Q) :
  store_download_image_bytes w !! image_id img = Some (b, stored_at) ->
  let r := load_image drive pil img max_size w in
  r.1 = match Image_open pil b with
        | Returned pil_img => Image_thumbnail pil pil_img max_size
        | Raised e => Raised e
        end /\
  requests r.2 = requests w /\
  attempts_in (events_since w r.2) = 0 /\
  clock r.2 = clock w /\
  (forall f, store_of f r.2 = store_of f w).
Proof.
  intros Hst. cbv zeta.
  assert (Hlk : lookup_fresh DownloadImageBytes (image_id img) w = Some b).
  { unfold lookup_fresh. cbn. by rewrite Hst. }
  unfold load_image, bind, download_image_bytes, events_since.
  rewrite (cache_data_hit _ _ _ _ _ Hlk).
  destruct (Image_open pil b) as [p|e]; cbn.
  - destruct (Image_thumbnail pil p max_size) as [p'|e]; cbn;
      rewrite ?drop_app_length, ?drop_all;
      (split; [done|split; [done|split; [done|split; [done|by intros []]]]]).
  - rewrite drop_app_length.
    split; [done|split; [done|split; [done|split; [done|by intros []]]]].
Qed.

Section KeepsBytes.
Variable drive : drive_service.
Variable pil : imaging.
Variable st : streamlit.

Lemma cache_data_keeps_bytes f arg : keeps_bytes (cache_data drive f arg).
Proof.
  intros w a Ha.
  change (is_Some (store_of DownloadImageBytes w !! a)) in Ha.
  change (is_Some (store_of DownloadImageBytes (cache_data drive f arg w).2 !! a)).
  assert (f = DownloadImageBytes /\ a = arg \/
          (DownloadImageBytes <> f \/ a <> arg)) as [[-> ->]|Hne].
  { destruct (decide (a = arg)) as [->|?]; [|by right; right].
    destruct f; try (by right; left). by left. }
  - destruct (lookup_fresh DownloadImageBytes arg w) as [v|] eqn:Hlk.
    + by rewrite (cache_data_hit _ _ _ _ _ Hlk).
    + rewrite (cache_data_miss _ _ _ _ Hlk).
      pose proof (quiet_wrapped drive DownloadImageBytes arg
                    (with_log (log w ++ [Enter DownloadImageBytes arg]) w))
        as (Hst & _).
      destruct (wrapped drive DownloadImageBytes arg _) as [[v|e] w1];
        cbn [fst snd] in *.
      * rewrite store_of_with_store, lookup_insert_eq. by eexists.
      * rewrite Hst. exact Ha.
  - by rewrite cache_data_other_entries.
Qed.

(** When the download returns, the bytes are in the store. *)
Lemma download_returned_stored file_id w b :
  (download_image_bytes drive file_id w).1 = Returned b ->
  is_Some (store_download_image_bytes (download_image_bytes drive file_id w).2
             !! file_id).
Proof.
  unfold download_image_bytes. intros Hr.
  change (is_Some (store_of DownloadImageBytes
                     (cache_data drive DownloadImageBytes file_id w).2 !! file_id)).
  destruct (lookup_fresh DownloadImageBytes file_id w) as [v|] eqn:Hlk.
  - rewrite (cache_data_hit _ _ _ _ _ Hlk). unfold lookup_fresh in Hlk.
    cbn [snd].
    destruct (store_of DownloadImageBytes w !! file_id) as [[v' t]|];
      [by eexists|done].
  - destruct (cache_data_miss_spec drive DownloadImageBytes file_id w Hlk)
      as (_ & _ & Hst).
    rewrite (Hst b Hr). by eexists.
Qed.

Lemma load_image_store img max_size w :
  store_download_image_bytes (load_image drive pil img max_size w).2
  = store_download_image_bytes (download_image_bytes drive (image_id img) w).2.
Proof.
  unfold load_image, bind.
  destruct (download_image_bytes drive (image_id img) w) as [[b|e] w1]; [|done].
  destruct (Image_open pil b) as [p|e]; cbn; [|done].
  by destruct (Image_thumbnail pil p max_size).
Qed.

Lemma load_image_returned img max_size w p :
  (load_image drive pil img max_size w).1 = Returned p ->
  exists b, (download_image_bytes drive (image_id img) w).1 = Returned b.
Proof.
  unfold load_image, bind.
  destruct (download_image_bytes drive (image_id img) w) as [[b|e] w1]; [|done].
  intros _. by exists b.
Qed.

Lemma render_image_store img max_size w :
  store_download_image_bytes (render_image drive pil st img max_size w).2
  = store_download_image_bytes (load_image drive pil img max_size w).2.
Proof.
  unfold render_image, try_except_Exception, bind.
  destruct (load_image drive pil img max_size w) as [[p|e] w1]; cbn [fst snd].
  - unfold st_image. destruct (st_image_raises st p) as [e|]; cbn; [|done].
    by destruct (is_Exception e).
  - by destruct (is_Exception e).
Qed.

Lemma with_container_store c img max_size w :
  store_download_image_bytes
    (with_container c (render_image drive pil st img max_size) w).2
  = store_download_image_bytes
      (download_image_bytes drive (image_id img) (with_page c (page w) w)).2.
Proof.
  unfold with_container.
  rewrite <- (load_image_store img max_size), <- (render_image_store img max_size).
  by destruct (render_image drive pil st img max_size (with_page c (page w) w)).
Qed.

Lemma render_loop_keeps_bytes columns cols max_size i images :
  keeps_bytes (render_loop drive pil st columns cols max_size i images).
Proof.
  revert i. induction images as [|img images IH]; intros i w a Ha; [done|].
  cbn [render_loop]. destruct (columns !! _) as [c|]; [|done].
  unfold bind.
  pose proof (with_container_store c img max_size w) as Hst.
  destruct (with_container c (render_image drive pil st img max_size) w)
    as [[u|e] w'] eqn:Hw; cbn [snd] in *.
  - apply IH. rewrite Hst.
    by apply (cache_data_keeps_bytes DownloadImageBytes (image_id img)).
  - rewrite Hst.
    by apply (cache_data_keeps_bytes DownloadImageBytes (image_id img)).
Qed.

Lemma render_loop_stores_pictures cols max_size :
  (0 < cols)%Z ->
  forall images n w i img p,
    let columns := map Column (seq 0 (Z.to_nat cols)) in
    images !! i = Some img ->
    load_outcomes drive pil st columns cols max_size n images w !! i
    = Some (Returned p) ->
    is_Some (store_download_image_bytes
               (render_loop drive pil st columns cols max_size n images w).2
               !! image_id img).
Proof.
  intros Hcols images. induction images as [|img0 images IH];
    intros n w i img p; cbv zeta; intros Hi Ho; [done|].
  cbn [render_loop load_outcomes] in *.
  rewrite columns_lookup in * by done. set (c := Column _) in *.
  unfold bind.
  pose proof (with_container_store c img0 max_size w) as Hst.
  set (w0 := with_page c (page w) w) in *.
  destruct (with_container c (render_image drive pil st img0 max_size) w)
    as [[u|e] w'] eqn:Hw; cbn [snd] in *.
  - destruct i as [|i]; cbn in Hi, Ho.
    + injection Hi as <-. injection Ho as Ho.
      apply render_loop_keeps_bytes. rewrite Hst.
      apply load_image_returned in Ho as [b Hb].
      by apply (download_returned_stored _ _ b).
    + by apply (IH (S n) w' i img p).
  - destruct i as [|i]; cbn in Hi, Ho; [|done].
    injection Hi as <-. injection Ho as Ho. rewrite Hst.
    apply load_image_returned in Ho as [b Hb].
    by apply (download_returned_stored _ _ b).
Qed.

End KeepsBytes.

(** X11. After [render_gallery], the bytes of every image that was fetched
    and decoded, and so of every image that the page shows as a picture, are
    in the store of [download_image_bytes], where the next run finds
    them. *)
Theorem shown_pictures_are_stored (drive : drive_service) (pil : imaging)
  (st : streamlit) (images : list ImageDescriptor) (cols : Z) (max_size : Z * Z) (w : world)
  (i : nat) (img : ImageDescriptor) (p : pil_image) :
  (0 < cols)%Z ->
  images !! i = Some img ->
  load_outcomes drive pil st (map Column (seq 0 (Z.to_nat cols))) cols max_size 0
    images w !! i = Some (Returned p) ->
  is_Some (store_download_image_bytes
             (render_gallery drive pil st images cols max_size w).2
             !! image_id img).
Proof.
  intros Hcols Hi Ho. unfold render_gallery, st_columns, bind.
  destruct (Z.leb_spec cols 0) as [?|_]; [lia|]. cbn [ret].
  by apply (render_loop_stores_pictures drive pil st cols max_size Hcols images 0 w i img p).
Qed.

(** At a concrete input: the third image of the page of three. *)
Lemma shown_pictures_are_stored_witness :
  is_Some (store_download_image_bytes
             (render_gallery demo_drive demo_pil demo_st demo_images 4 default_max_size
                initial_world).2 !! "photo-3"%string).
Proof.
  exact (shown_pictures_are_stored demo_drive demo_pil demo_st demo_images 4
           default_max_size initial_world 2
           {| image_id := "photo-3"; image_name := "IMG_0003.jpg";
              image_mimeType := "image/jpeg" |}
           {| pil_width := 2000; pil_height := 1500;
              pil_source := [Byte.xff; Byte.xd8] |}
           eq_refl eq_refl eq_refl).
Defined.

(** At a concrete input: the first image of the page, once downloaded. *)
Lemma stored_image_needs_no_download_witness :
  let w := (download_image_bytes demo_drive "photo-1" initial_world).2 in
  requests
    (load_image demo_drive demo_pil
       {| image_id := "photo-1"; image_name := "IMG_0001.jpg";
          image_mimeType := "image/jpeg" |} default_max_size w).2
  = requests w.
Proof.
  cbv zeta.
  refine (proj1 (proj2 (stored_image_needs_no_download demo_drive demo_pil
    {| image_id := "photo-1"; image_name := "IMG_0001.jpg";
       image_mimeType := "image/jpeg" |} default_max_size
    (download_image_bytes demo_drive "photo-1" initial_world).2
    [Byte.xff; Byte.xd8] 0%Q _))).
  reflexivity.
Defined.

Lemma grid_from_columns cols i cs :
  (0 < cols)%Z ->
  Forall (fun ce => exists k, ce.1 = Column k /\ (Z.of_nat k < cols)%Z)
    (grid_from cols i cs).
Proof.
  intros Hcols. revert i. induction cs as [|c cs IH]; intros i; cbn; [constructor|].
  apply Forall_app. split; [|apply IH].
  apply Forall_forall. intros ce Hin. apply list_elem_of_fmap in Hin as (el & -> & _).
  eexists. split; [reflexivity|].
  pose proof (Z.mod_pos_bound (Z.of_nat i) cols Hcols). lia.
Qed.

(** X12. Whatever happens, [render_gallery] only adds to the page: what was
    on the page stays in front, every element added goes to one of the
    columns 0 to [cols - 1], and the container current before the call is
    current again after it. *)
Theorem render_only_adds_to_its_columns (drive : drive_service) (pil : imaging)
  (st : streamlit) (images : list ImageDescriptor) (cols : Z) (max_size : Z * Z) (w : world) :
  let r := render_gallery drive pil st images cols max_size w in
  container r.2 = container w /\
  exists added,
    page r.2 = page w ++ added /\
    Forall (fun ce => exists k, ce.1 = Column k /\ (Z.of_nat k < cols)%Z) added.
Proof.
  cbv zeta. destruct (Z.leb_spec cols 0) as [Hle|Hcols].
  - unfold render_gallery, st_columns, bind.
    destruct (Z.leb_spec cols 0) as [_|?]; [|lia]. cbn.
    split; [done|]. exists []. by rewrite app_nil_r.
  - destruct (render_gallery_spec drive pil st images cols max_size w Hcols)
      as (Hu & Hp & _). cbv zeta in Hp.
    split; [exact Hu|]. eexists. split; [exact Hp|].
    by apply grid_from_columns.
Qed.

(** ** Studio selection *)

Lemma dict_get_set_eq k v d : dict_get k (dict_set k v d) = Some v.
Proof.
  induction d as [|[k' v'] d IH]; cbn; [by rewrite String.eqb_refl|].
  destruct (String.eqb k' k) eqn:Hk; cbn; by rewrite Hk.
Qed.

Lemma dict_get_set_ne k k' v d :
  k <> k' -> dict_get k' (dict_set k v d) = dict_get k' d.
Proof.
  intros Hne. induction d as [|[k0 v0] d IH]; cbn.
  - apply String.eqb_neq in Hne. by rewrite Hne.
  - destruct (String.eqb k0 k) eqn:Hk; cbn; [|by rewrite IH].
    apply String.eqb_eq in Hk as ->.
    apply String.eqb_neq in Hne. by rewrite Hne.
Qed.

Lemma dict_set_keys k v d :
  map fst (dict_set k v d)
  = if bool_decide (k ∈ map fst d) then map fst d else map fst d ++ [k].
Proof.
  induction d as [|[k' v'] d IH]; cbn; [done|].
  destruct (String.eqb k' k) eqn:Hk; cbn.
  - apply String.eqb_eq in Hk as ->. rewrite bool_decide_eq_true_2; [done|].
    apply elem_of_cons. by left.
  - apply String.eqb_neq in Hk. rewrite IH.
    destruct (bool_decide (k ∈ map fst d)) eqn:Hin.
    + apply bool_decide_eq_true in Hin. rewrite bool_decide_eq_true_2; [done|].
      apply elem_of_cons. by right.
    + apply bool_decide_eq_false in Hin. rewrite bool_decide_eq_false_2; [done|].
      intros Hc. apply elem_of_cons in Hc as [Hc|Hc]; [by symmetry in Hc|done].
Qed.

Lemma dict_set_NoDup k v d : NoDup (map fst d) -> NoDup (map fst (dict_set k v d)).
Proof.
  intros Hd. rewrite dict_set_keys. case_bool_decide as Hin; [done|].
  apply NoDup_app. split; [done|]. split; [|apply NoDup_singleton].
  intros x Hx Hk. apply list_elem_of_singleton in Hk as ->. done.
Qed.

Lemma dict_set_all_NoDup pairs : forall d,
  NoDup (map fst d) -> NoDup (map fst (dict_set_all d pairs)).
Proof.
  induction pairs as [|p pairs IH]; intros d Hd; [done|].
  cbn. apply IH. by apply dict_set_NoDup.
Qed.

(** A key that [pairs] does not set keeps its value. *)
Lemma dict_set_all_untouched name pairs : forall d,
  (forall j p, pairs !! j = Some p -> p.1 <> name) ->
  dict_get name (dict_set_all d pairs) = dict_get name d.
Proof.
  induction pairs as [|p pairs IH]; intros d Hno; [done|].
  cbn. rewrite IH.
  - apply dict_get_set_ne. by apply (Hno 0 p).
  - intros j q Hq. by apply (Hno (S j) q).
Qed.

(** The last item of [pairs] that sets a key gives its value. *)
Lemma dict_set_all_last name pairs : forall d j fid,
  pairs !! j = Some (name, fid) ->
  (forall j' p, j < j' -> pairs !! j' = Some p -> p.1 <> name) ->
  dict_get name (dict_set_all d pairs) = Some fid.
Proof.
  induction pairs as [|p pairs IH]; intros d j fid Hj Hlast; [done|].
  destruct j as [|j]; cbn in Hj.
  - injection Hj as ->. cbn.
    rewrite dict_set_all_untouched; [apply dict_get_set_eq|].
    intros j' q Hq. apply (Hlast (S j') q); [lia|done].
  - cbn. apply (IH _ j fid Hj).
    intros j' q Hlt Hq. apply (Hlast (S j') q); [lia|done].
Qed.

(** A value of the map was set by some item, or was there before. *)
Lemma dict_set_all_origin name fid pairs : forall d,
  dict_get name (dict_set_all d pairs) = Some fid ->
  (exists j, pairs !! j = Some (name, fid)) \/ dict_get name d = Some fid.
Proof.
  induction pairs as [|[n f] pairs IH]; intros d H; [by right|].
  cbn in H. apply IH in H as [[j Hj]|H]; [left; by exists (S j)|].
  destruct (String.eqb_spec n name) as [->|Hne].
  - rewrite dict_get_set_eq in H. injection H as ->. left. by exists 0.
  - rewrite dict_get_set_ne in H by done. by right.
Qed.

Section RootFacts.
Variable drive : drive_service.

Lemma root_map_from_app pre rest : forall d w,
  root_map_from drive (pre ++ rest) d w
  = match root_map_from drive pre d w with
    | (Returned d', w') => root_map_from drive rest d' w'
    | (Raised e, w') => (Raised e, w')
    end.
Proof.
  induction pre as [|fid pre IH]; intros d w; [done|].
  cbn [app root_map_from]. unfold bind.
  destruct (get_folder_name drive fid w) as [[name|e] w1]; [apply IH|done].
Qed.

(** The comprehension sets, in turn, each name returned to the id it was
    asked for. *)
Lemma root_map_from_names ids : forall d0 w d w',
  root_map_from drive ids d0 w = (Returned d, w') ->
  exists names,
    folder_names drive ids w = (Returned names, w') /\
    List.length names = List.length ids /\
    d = dict_set_all d0 (zip names ids).
Proof.
  induction ids as [|fid ids IH]; intros d0 w d w' H.
  - injection H as <- <-. by exists [].
  - cbn [root_map_from folder_names] in *. unfold bind in *.
    destruct (get_folder_name drive fid w) as [[name|e] w1]; [|done].
    apply IH in H as (names & Hn & Hlen & ->). rewrite Hn.
    exists (name :: names). cbn. by rewrite Hlen.
Qed.

End RootFacts.

(** X13. No studio is isolated from the failure of another: when the
    folder name of one configured root cannot be read, building [root_map]
    raises that error; the roots after it are not asked for their name (the
    world is the one that the failed call left) and no map is made. *)
Theorem root_failure_aborts_the_map (drive : drive_service)
  (pre post : list string) (bad : string) (w w1 : world)
  (d : list (string * string)) (e : exn) :
  root_map drive pre w = (Returned d, w1) ->
  (get_folder_name drive bad w1).1 = Raised e ->
  root_map drive (pre ++ bad :: post) w
  = (Raised e, (get_folder_name drive bad w1).2).
Proof.
  unfold root_map. intros Hpre Hbad. rewrite root_map_from_app, Hpre.
  cbn [root_map_from]. unfold bind.
  destruct (get_folder_name drive bad w1) as [[name|e'] w2]; cbn in *; congruence.
Qed.

(** At a concrete input: the second of three roots is unknown to the
    service. *)
Lemma root_failure_aborts_the_map_witness :
  (root_map one_studio_drive ["root-1"; "root-2"; "root-3"]%string
     initial_world).1 = Raised a_ConnectionError /\
  requests (root_map one_studio_drive ["root-1"; "root-2"; "root-3"]%string
              initial_world).2 = 2.
Proof.
  pose proof (root_failure_aborts_the_map one_studio_drive ["root-1"%string]
                ["root-3"%string] "root-2" initial_world
                (root_map one_studio_drive ["root-1"%string] initial_world).2
                [("Seoul", "root-1")]%string a_ConnectionError eq_refl eq_refl)
    as H.
  cbn [app] in H. rewrite H. split; reflexivity.
Defined.

(** X14. Studios of the same name hide one another: [root_map] gives a
    name the id of the last configured root whose folder bears it, so the
    roots of that name before it cannot be reached; and it gives a name no
    id but that of a root whose folder bears the name. *)
Theorem last_root_of_a_name_wins (drive : drive_service) (ids : list string)
  (w w' : world) (d : list (string * string)) :
  root_map drive ids w = (Returned d, w') ->
  exists names,
    folder_names drive ids w = (Returned names, w') /\
    List.length names = List.length ids /\
    (forall j name fid,
       names !! j = Some name -> ids !! j = Some fid ->
       (forall j', j < j' -> names !! j' <> Some name) ->
       dict_get name d = Some fid) /\
    (forall name fid,
       dict_get name d = Some fid ->
       exists j, names !! j = Some name /\ ids !! j = Some fid).
Proof.
  unfold root_map. intros H.
  apply root_map_from_names in H as (names & Hn & Hlen & ->).
  exists names. split; [done|]. split; [done|]. split.
  - intros j name fid Hname Hid Hlast.
    apply (dict_set_all_last name _ [] j fid).
    + rewrite lookup_zip_with, Hname. cbn. by rewrite Hid.
    + intros j' [n f] Hlt Hp Heq. cbn in Heq. subst n.
      apply lookup_zip_with_Some in Hp as (n & f' & [= <- <-] & Hn' & _).
      by apply (Hlast j' Hlt).
  - intros name fid H.
    apply dict_set_all_origin in H as [[j Hj]|H]; [|done].
    apply lookup_zip_with_Some in Hj as (n & f' & [= <- <-] & Hn' & Hf).
    by exists j.
Qed.

(** At a concrete input: the first and the third root are both named
    Seoul. *)
Lemma last_root_of_a_name_wins_witness :
  exists d,
    (root_map twin_studios_drive ["root-1"; "root-2"; "root-3"]%string
       initial_world).1 = Returned d /\
    dict_get "Seoul" d = Some "root-3"%string.
Proof.
  destruct (root_map twin_studios_drive ["root-1"; "root-2"; "root-3"]%string
              initial_world) as [r w'] eqn:Hrun.
  assert (Hr : r = Returned [("Seoul", "root-3"); ("Busan", "root-2")]%string)
    by (apply (f_equal fst) in Hrun; cbn in Hrun; rewrite <- Hrun; reflexivity).
  subst r. eexists. split; [reflexivity|].
  destruct (last_root_of_a_name_wins _ _ _ _ _ Hrun) as (names & Hn & _ & Hlast & _).
  assert (Hnames : names = ["Seoul"; "Busan"; "Seoul"]%string).
  { apply (f_equal fst) in Hn. cbn in Hn. by injection Hn. }
  subst names. apply (Hlast 2); [reflexivity..|].
  intros [|[|[|j']]] Hlt; (lia || done).
Defined.

Lemma insert_sorted_perm x l : insert_sorted x l ≡ₚ x :: l.
Proof.
  induction l as [|y l IH]; cbn; [done|].
  destruct (String.ltb y x); [|done].
  rewrite IH. apply Permutation_swap.
Qed.

Lemma insert_sorted_sorted x l :
  StronglySorted (fun a b => String.leb a b = true) l ->
  StronglySorted (fun a b => String.leb a b = true) (insert_sorted x l).
Proof.
  induction 1 as [|y l Hs IH Hall]; cbn.
  - by repeat constructor.
  - destruct (String.ltb y x) eqn:Hlt.
    + constructor; [exact IH|].
      rewrite insert_sorted_perm. constructor; [|exact Hall].
      by apply string_ltb_true_leb.
    + pose proof (string_ltb_false_leb _ _ Hlt) as Hle.
      constructor; [by constructor|].
      constructor; [exact Hle|].
      eapply Forall_impl; [exact Hall|]. intros z Hz.
      by apply string_leb_trans with y.
Qed.

Lemma sorted_strings_perm l : sorted_strings l ≡ₚ l.
Proof.
  induction l as [|x l IH]; cbn; [done|]. by rewrite insert_sorted_perm, IH.
Qed.

Lemma sorted_strings_sorted l :
  StronglySorted (fun a b => String.leb a b = true) (sorted_strings l).
Proof.
  induction l as [|x l IH]; cbn; [constructor|]. by apply insert_sorted_sorted.
Qed.

Lemma dict_get_key k d : k ∈ map fst d -> is_Some (dict_get k d).
Proof.
  induction d as [|[k' v'] d IH]; cbn; [by intros ?%elem_of_nil|].
  intros Hin. destruct (String.eqb_spec k' k) as [->|Hne]; [by eexists|].
  apply elem_of_cons in Hin as [Hin|Hin]; [by symmetry in Hin|by apply IH].
Qed.

(** X15. The studio selector: the names offered are the names of
    [root_map], each once, in ascending order; every one of them that the
    user may pick resolves to the id that [root_map] holds for it, without
    [KeyError]; with no configured root, [root_map[None]] raises
    [KeyError]. *)
Theorem studio_selector_resolves (drive : drive_service) (ids : list string)
  (w w' : world) (d : list (string * string)) :
  root_map drive ids w = (Returned d, w') ->
  let names := root_names d in
  StronglySorted (fun a b => String.leb a b = true) names /\
  NoDup names /\
  names ≡ₚ map fst d /\
  (forall choice, choice < List.length names ->
     exists name fid,
       select_root d choice = Returned (name, fid) /\
       names !! choice = Some name /\
       dict_get name d = Some fid) /\
  (ids = [] -> forall choice, select_root d choice = Raised KeyError_None).
Proof.
  intros H names.
  assert (Hperm : names ≡ₚ map fst d) by apply sorted_strings_perm.
  split; [apply sorted_strings_sorted|]. split; [|split; [exact Hperm|split]].
  - rewrite Hperm. unfold root_map in H.
    apply root_map_from_names in H as (ns & _ & _ & ->).
    apply dict_set_all_NoDup. constructor.
  - intros choice Hc.
    destruct (lookup_lt_is_Some_2 names choice Hc) as [name Hname].
    assert (Hin : name ∈ map fst d).
    { rewrite <- Hperm. by apply list_elem_of_lookup_2 with choice. }
    destruct (dict_get_key name d Hin) as [fid Hfid].
    exists name, fid. unfold select_root, selectbox. fold names.
    by rewrite Hname, Hfid.
  - intros -> choice. injection H as <- _. reflexivity.
Qed.

(** At a concrete input: three roots, two of them named Seoul. *)
Lemma studio_selector_resolves_witness :
  root_names [("Seoul", "root-3"); ("Busan", "root-2")]%string
  ≡ₚ ["Seoul"; "Busan"]%string.
Proof.
  pose proof (surjective_pairing
                (root_map twin_studios_drive ["root-1"; "root-2"; "root-3"]%string
                   initial_world)) as Hrun.
  assert (Hfst : (root_map twin_studios_drive ["root-1"; "root-2"; "root-3"]%string
                    initial_world).1
                 = Returned [("Seoul", "root-3"); ("Busan", "root-2")]%string)
    by (vm_compute; reflexivity).
  rewrite Hfst in Hrun.
  exact (proj1 (proj2 (proj2 (studio_selector_resolves _ _ _ _ _ Hrun)))).
Defined.

(** ** More on session selection *)

Lemma string_ltb_irrefl x : String.ltb x x = false.
Proof.
  unfold String.ltb. pose proof (String.compare_antisym x x) as H.
  by destruct (String.compare x x).
Qed.

Lemma insert_reverse_filter_name name x l :
  List.filter (fun s => String.eqb (folder_name s) name) (insert_reverse x l)
  = List.filter (fun s => String.eqb (folder_name s) name) (x :: l).
Proof.
  induction l as [|y l IH]; [done|].
  cbn [insert_reverse]. destruct (String.ltb (folder_name x) (folder_name y)) eqn:Hlt;
    [|done].
  cbn [List.filter] in *. rewrite IH.
  destruct (String.eqb_spec (folder_name x) name) as [Hx|Hx];
    destruct (String.eqb_spec (folder_name y) name) as [Hy|Hy]; try done.
  rewrite Hx, Hy, string_ltb_irrefl in Hlt. done.
Qed.

(** X16. The sort of the sessions is stable: the sessions that bear one
    and the same name come out in the order in which they were listed. *)
Theorem sort_keeps_listing_order_of_twins (listed : list Folder) (name : string) :
  List.filter (fun s => String.eqb (folder_name s) name)
    (sorted_by_name_reverse listed)
  = List.filter (fun s => String.eqb (folder_name s) name) listed.
Proof.
  induction listed as [|x listed IH]; [done|].
  cbn [sorted_by_name_reverse foldr].
  fold (sorted_by_name_reverse listed).
  rewrite insert_reverse_filter_name. cbn [List.filter]. by rewrite IH.
Qed.

Lemma filter_StronglySorted {A} (R : A -> A -> Prop) (p : A -> bool) l :
  StronglySorted R l -> StronglySorted R (List.filter p l).
Proof.
  induction 1 as [|x l Hs IH Hall]; cbn; [constructor|].
  destruct (p x); [|done]. constructor; [done|].
  apply Forall_forall. intros y Hy. apply list_elem_of_In, filter_In in Hy as [Hy _].
  rewrite Forall_forall in Hall. by apply Hall, list_elem_of_In.
Qed.

Lemma filter_sublist {A} (p : A -> bool) l : sublist (List.filter p l) l.
Proof.
  induction l as [|x l IH]; cbn; [constructor|].
  destruct (p x); by constructor.
Qed.

(** X17. The search filter keeps the order of the sort: the sessions
    offered in the selector are sessions that were listed, they appear in
    the order of the sorted list, and their names are still in descending
    order. *)
Theorem filtered_sessions_stay_sorted (u : unicode_data) (listed : list Folder)
  (text : string) :
  let sessions := filter_sessions u text (sorted_by_name_reverse listed) in
  StronglySorted name_ge sessions /\
  sublist sessions (sorted_by_name_reverse listed) /\
  (forall s, s ∈ sessions -> s ∈ listed).
Proof.
  cbv zeta.
  assert (Hsub : sublist (filter_sessions u text (sorted_by_name_reverse listed))
                   (sorted_by_name_reverse listed)).
  { unfold filter_sessions, matching. destruct (nonempty _); [|done].
    apply filter_sublist. }
  split; [|split; [exact Hsub|]].
  - unfold filter_sessions, matching. destruct (nonempty _).
    + apply filter_StronglySorted, sorted_by_name_reverse_sorted.
    + apply sorted_by_name_reverse_sorted.
  - intros s Hs. rewrite <- (sorted_by_name_reverse_perm listed).
    eapply elem_of_submseteq; [exact Hs|by apply sublist_submseteq].
Qed.

Lemma filter_nil_iff {A} (p : A -> bool) l :
  List.filter p l = [] <-> forall x, x ∈ l -> p x = false.
Proof.
  induction l as [|y l IH]; cbn.
  - split; [by intros _ x ?%elem_of_nil|done].
  - destruct (p y) eqn:Hy.
    + split; [done|]. intros H. specialize (H y ltac:(by left)). congruence.
    + rewrite IH. split.
      * intros H x Hx. apply elem_of_cons in Hx as [->|Hx]; [done|by apply H].
      * intros H x Hx. apply H. by right.
Qed.

(** X18. The two ways in which the session selection stops: with the
    warning that no session folder was found exactly when the listing is
    empty, and with the warning that no session matches exactly when
    sessions were listed, the stripped search text is not empty and no
    listed name contains it, the case of letters apart.  With sessions to
    choose from, the selection fails only for a choice beyond the list,
    which the selector does not offer. *)
Theorem ways_the_selection_stops (u : unicode_data) (listed : list Folder)
  (text : string) (choice : nat) :
  (select_session u listed text choice
   = Stop "No session folders found in this Studio folder."
   <-> listed = []) /\
  (select_session u listed text choice = Stop "No sessions match your search."
   <-> listed <> [] /\ nonempty (strip text) = true /\
       forall s, s ∈ listed ->
                 ~ contains_ignoring_case u (strip text) (folder_name s)) /\
  (select_session u listed text choice = StopIteration
   <-> filter_sessions u text (sorted_by_name_reverse listed) <> [] /\
       List.length (filter_sessions u text (sorted_by_name_reverse listed))
       <= choice).
Proof.
  set (sorted := sorted_by_name_reverse listed).
  assert (Hperm : sorted ≡ₚ listed) by apply sorted_by_name_reverse_perm.
  assert (Hsel : forall s1 rest,
             filter_sessions u text sorted = s1 :: rest ->
             select_session u listed text choice
             = match (s1 :: rest) !! choice with
               | Some chosen =>
                   match next_named (s1 :: rest) (folder_name chosen) with
                   | Some sel => Selected (s1 :: rest) (folder_name chosen) sel
                   | None => StopIteration
                   end
               | None => StopIteration
               end).
  { intros s1 rest Hf. unfold select_session. destruct listed as [|s0 listed'].
    { subst sorted. unfold filter_sessions in Hf. cbn in Hf.
      by destruct (nonempty _). }
    fold sorted. rewrite Hf. unfold selectbox. rewrite list_lookup_fmap.
    by destruct ((s1 :: rest) !! choice). }
  assert (Hnil : filter_sessions u text sorted = [] <->
                 listed = [] \/
                 (nonempty (strip text) = true /\
                  forall s, s ∈ listed ->
                            ~ contains_ignoring_case u (strip text) (folder_name s))).
  { unfold filter_sessions. rewrite nonempty_search_of. unfold search_of, matching.
    destruct (nonempty (strip text)) eqn:Hne.
    - rewrite filter_nil_iff. split.
      + intros H. right. split; [done|]. intros s Hs Hc.
        apply contains_lower_iff in Hc. rewrite <- Hperm in Hs.
        specialize (H s Hs). cbn in H. congruence.
      + intros [->|[_ H]]; [by intros x ?%elem_of_nil|].
        intros s Hs. rewrite Hperm in Hs. specialize (H s Hs).
        destruct (contains _ _) eqn:Hc; [|done].
        exfalso. by apply H, contains_lower_iff.
    - split.
      + intros Hs. left. rewrite Hs in Hperm.
        by apply Permutation_nil in Hperm.
      + intros [->|[? _]]; done. }
  split; [|split].
  - split; [|by intros ->].
    destruct listed as [|s0 listed']; [done|]. intros H. exfalso.
    destruct (filter_sessions u text sorted) as [|s1 rest] eqn:Hf.
    + unfold select_session in H. fold sorted in H. rewrite Hf in H. done.
    + rewrite (Hsel s1 rest eq_refl) in H.
      destruct ((s1 :: rest) !! choice); [|done]. by destruct (next_named _ _).
  - split.
    + intros H. destruct listed as [|s0 listed']; [done|]. split; [done|].
      destruct (filter_sessions u text sorted) as [|s1 rest] eqn:Hf.
      * destruct (proj1 Hnil eq_refl) as [?|?]; done.
      * rewrite (Hsel s1 rest eq_refl) in H.
        destruct ((s1 :: rest) !! choice); [|done]. by destruct (next_named _ _).
    + intros (Hl & Hne & Hno). destruct listed as [|s0 listed']; [done|].
      assert (Hf : filter_sessions u text sorted = []) by (apply Hnil; by right).
      unfold select_session. fold sorted. by rewrite Hf.
  - destruct (filter_sessions u text sorted) as [|s1 rest] eqn:Hf.
    + split; [|by intros [? _]]. intros H. exfalso.
      destruct listed as [|s0 listed']; [done|].
      unfold select_session in H. fold sorted in H. by rewrite Hf in H.
    + rewrite (Hsel s1 rest eq_refl).
      destruct ((s1 :: rest) !! choice) as [chosen|] eqn:Hc.
      * destruct (find_first (fun s => String.eqb (folder_name s) (folder_name chosen))
                    (s1 :: rest) choice chosen Hc (String.eqb_refl _))
          as (i & sel & Hfind & _).
        unfold next_named. rewrite Hfind. split; [done|].
        intros [_ Hlen]. apply lookup_lt_Some in Hc. lia.
      * split; [|done]. intros _. split; [done|].
        by apply lookup_ge_None in Hc.
Qed.

(** ** More on pagination *)

(** The page [k] of a session, once the user has set the page widget
    to [k]. *)
Lemma paginate_at_page (images : list ImageDescriptor)
  (session : gmap widget_id Z) (k : Z) :
  images <> [] -> in_bounds session ->
  let total := Z.of_nat (List.length images) in
  let ps := page_size (paginate total session) in
  let n := pages (paginate total session) in
  (1 <= k <= n)%Z ->
  (10 <= ps <= 100)%Z /\
  ((n - 1) * ps < total <= n * ps)%Z /\
  page_number (paginate total (user_sets (page_id n) k session)) = k /\
  images_page images (user_sets (page_id n) k session)
  = take (Z.to_nat ps) (drop (Z.to_nat ((k - 1) * ps)) images).
Proof.
  intros Hne Hb total ps n Hk.
  assert (Htot : (1 <= total)%Z) by (subst total; destruct images; [done|cbn; lia]).
  assert (Hps : (10 <= ps <= 100)%Z).
  { subst ps. apply (widget_value_in_bounds "📄 Images per page" 10 100 30);
      [done|lia]. }
  pose proof (total_pages_ceil total ps Htot ltac:(lia)) as Hceil.
  cbv zeta in Hceil. change (total_pages total ps) with n in Hceil.
  set (s' := user_sets (page_id n) k session).
  assert (Hps' : page_size (paginate total s') = ps).
  { subst s' ps. unfold paginate, slider, widget_value, user_sets.
    cbn [page_size]. fold page_size_id.
    by rewrite lookup_insert_ne by apply page_id_not_page_size. }
  assert (Hn' : pages (paginate total s') = n).
  { change (pages (paginate total s'))
      with (total_pages total (page_size (paginate total s'))).
    by rewrite Hps'. }
  assert (Hpg : page_number (paginate total s') = k).
  { change (page_number (paginate total s'))
      with (default 1%Z (s' !! page_id (pages (paginate total s')))).
    rewrite Hn'. subst s'. unfold user_sets. by rewrite lookup_insert_eq. }
  split; [exact Hps|]. split; [exact Hceil|]. split; [exact Hpg|].
  unfold images_page. fold total.
  change (start (paginate total s'))
    with ((page_number (paginate total s') - 1)
          * page_size (paginate total s'))%Z.
  change (end_ (paginate total s'))
    with (Z.min ((page_number (paginate total s') - 1)
                 * page_size (paginate total s')
                 + page_size (paginate total s')) total).
  rewrite Hpg, Hps'.
  assert (Hstart : (0 <= (k - 1) * ps < total)%Z) by nia.
  rewrite py_slice_in_range by (fold total; lia).
  set (rest := drop (Z.to_nat ((k - 1) * ps)) images).
  assert (Hlen : List.length rest = Z.to_nat (total - (k - 1) * ps)).
  { subst rest total. rewrite length_drop. lia. }
  destruct (Z.le_gt_cases ((k - 1) * ps + ps) total) as [Hfull|Hlast].
  - rewrite Z.min_l by lia. f_equal. lia.
  - rewrite Z.min_r by lia. rewrite !take_ge; [done|lia..].
Qed.

Lemma concat_chunks {A} (l : list A) (ps n : nat) :
  concat (map (fun k => take ps (drop ((k - 1) * ps) l)) (seq 1 n))
  = take (n * ps) l.
Proof.
  induction n as [|n IH]; [done|].
  rewrite seq_S, map_app, concat_app, IH. cbn [map concat].
  rewrite app_nil_r. replace (1 + n - 1) with n by lia.
  rewrite take_take_drop. f_equal. lia.
Qed.

(** X19. The pages cover the images: for a non-empty image list, the
    slices shown on the pages 1 to [total_pages], one after the other, are
    the image list itself: no image is left out and none is shown on two
    pages. *)
Theorem pages_cover_the_images (images : list ImageDescriptor)
  (session : gmap widget_id Z) :
  images <> [] -> in_bounds session ->
  let n := pages (paginate (Z.of_nat (List.length images)) session) in
  concat (map (fun k => images_page images
                          (user_sets (page_id n) (Z.of_nat k) session))
            (seq 1 (Z.to_nat n)))
  = images.
Proof.
  intros Hne Hb n.
  set (total := Z.of_nat (List.length images)) in *.
  set (ps := page_size (paginate total session)).
  destruct (paginate_at_page images session 1 Hne Hb) as (Hps & Hceil & _).
  { fold total. fold n. pose proof (total_pages_pos total ps).
    change n with (total_pages total ps). lia. }
  fold total in Hceil. fold ps in Hps, Hceil. fold n in Hceil.
  transitivity (concat (map (fun k => take (Z.to_nat ps)
                                        (drop ((k - 1) * Z.to_nat ps) images))
                          (seq 1 (Z.to_nat n)))).
  - f_equal. apply map_ext_in. intros k Hk. apply in_seq in Hk.
    destruct (paginate_at_page images session (Z.of_nat k) Hne Hb)
      as (_ & _ & _ & Hpage); [fold total; fold n; lia|].
    fold total in Hpage. fold n in Hpage. fold ps in Hpage.
    rewrite Hpage. do 2 f_equal. nia.
  - rewrite concat_chunks. apply take_ge. subst total. nia.
Qed.

(** At a concrete input: three images and an untouched session. *)
Lemma pages_cover_the_images_witness :
  let n := pages (paginate (Z.of_nat (List.length demo_images)) ∅) in
  concat (map (fun k => images_page demo_images
                          (user_sets (page_id n) (Z.of_nat k) ∅))
            (seq 1 (Z.to_nat n)))
  = demo_images.
Proof.
  refine (pages_cover_the_images demo_images ∅ _ _).
  - discriminate.
  - intros label lo hi dflt v Hv. rewrite lookup_empty in Hv. discriminate.
Defined.

(** X20. Every page but the last is full and the last one holds the rest:
    for a non-empty image list and a page [k] between 1 and [total_pages],
    the page shows [page_size] images when [k < total_pages] and the
    remaining [total - (total_pages - 1) * page_size] images, at least one
    and at most [page_size], when [k = total_pages]. *)
Theorem page_lengths (images : list ImageDescriptor)
  (session : gmap widget_id Z) (k : Z) :
  images <> [] -> in_bounds session ->
  let total := Z.of_nat (List.length images) in
  let ps := page_size (paginate total session) in
  let n := pages (paginate total session) in
  (1 <= k <= n)%Z ->
  let shown := Z.of_nat (List.length
                 (images_page images (user_sets (page_id n) k session))) in
  (k < n -> shown = ps)%Z /\
  (k = n -> shown = total - (n - 1) * ps)%Z /\
  (1 <= shown <= ps)%Z.
Proof.
  intros Hne Hb total ps n Hk shown.
  destruct (paginate_at_page images session k Hne Hb Hk)
    as (Hps & Hceil & _ & Hpage).
  fold total in Hceil, Hpage. fold ps in Hps, Hceil, Hpage. fold n in Hceil, Hpage.
  assert (Hshown : shown = Z.min ps (total - (k - 1) * ps)).
  { subst shown. rewrite Hpage, length_take, length_drop. subst total. nia. }
  rewrite Hshown. repeat split; nia.
Qed.

(** At a concrete input: 3 images on the only page. *)
Lemma page_lengths_witness :
  let total := Z.of_nat (List.length demo_images) in
  let ps := page_size (paginate total ∅) in
  let n := pages (paginate total ∅) in
  let shown := Z.of_nat (List.length
                 (images_page demo_images (user_sets (page_id n) 1 ∅))) in
  (1 <= shown <= ps)%Z.
Proof.
  refine (proj2 (proj2 (page_lengths demo_images ∅ 1 _ _ _))).
  - discriminate.
  - intros label lo hi dflt v Hv. rewrite lookup_empty in Hv. discriminate.
  - vm_compute. split; discriminate.
Defined.
